(** * Size-map prompt scripts: a shallow embedding and its properties

    The repository holds three interactive Node scripts that prompt for
    desktop, tablet and mobile sizes ([notAutoInsert.js], [sizeMapRef.js]
    and a third variant with a first-plus-extensions output shape) and a
    launcher ([main.js]).  The scripts share, verbatim, the functions
    [isValidFormat], [parseSizes], [askQuestion] and [getValidInput].

    JavaScript strings are sequences of UTF-16 code units and are modelled as
    [list N]; a number produced by [parseInt] is [NaN] or the Number value
    of a mathematical integer, written [Int z]. *)

From Stdlib Require Import List NArith ZArith Bool String Ascii Lia.
From Stdlib Require DecimalString.
Import ListNotations.

Set Warnings "-register-all".

(** ** JavaScript strings *)

Module JS.

Definition jsstring := list N.

(** An ASCII literal of the source as a sequence of code units. *)
Definition lit (s : string) : jsstring :=
  List.map N_of_ascii (list_ascii_of_string s).

Definition unit_eqb (a b : N) : bool := N.eqb a b.

Fixpoint str_eqb (s t : jsstring) : bool :=
  match s, t with
  | [], [] => true
  | a :: s', b :: t' => unit_eqb a b && str_eqb s' t'
  | _, _ => false
  end.

(** [\d] of a regular expression without the [u] or [v] flag: 0-9. *)
Definition isDigit (c : N) : bool := (48 <=? c)%N && (c <=? 57)%N.

(** WhiteSpace and LineTerminator code points of ECMAScript, the set
    stripped by [String.prototype.trim] and skipped by [parseInt]. *)
Definition isWhiteSpace (c : N) : bool :=
  ((9 <=? c) && (c <=? 13))%N
  || (c =? 32)%N || (c =? 160)%N || (c =? 5760)%N
  || ((8192 <=? c) && (c <=? 8202))%N
  || (c =? 8232)%N || (c =? 8233)%N || (c =? 8239)%N
  || (c =? 8287)%N || (c =? 12288)%N || (c =? 65279)%N.

Fixpoint dropWhile (p : N -> bool) (s : jsstring) : jsstring :=
  match s with
  | [] => []
  | c :: s' => if p c then dropWhile p s' else s
  end.

Fixpoint takeWhile (p : N -> bool) (s : jsstring) : jsstring :=
  match s with
  | [] => []
  | c :: s' => if p c then c :: takeWhile p s' else []
  end.

Definition trimStart (s : jsstring) : jsstring := dropWhile isWhiteSpace s.

Definition trimEnd (s : jsstring) : jsstring :=
  rev (dropWhile isWhiteSpace (rev s)).

(** [s.trim()] *)
Definition trim (s : jsstring) : jsstring := trimEnd (trimStart s).

(** [s.split(sep)] for a one-unit separator and no limit: the result is
    never empty, and [split] of the empty string is the one-element array
    holding the empty string. *)
Fixpoint split (sep : N) (s : jsstring) : list jsstring :=
  match s with
  | [] => [[]]
  | c :: s' =>
      if unit_eqb c sep then [] :: split sep s'
      else match split sep s' with
           | [] => [[c]]
           | h :: t => (c :: h) :: t
           end
  end.

(** Case mapping.  Code units A-Z and a-z are mapped as ASCII.  Of the code
    units above 127, the table keeps those whose image contains an ASCII
    unit (U+0130 and U+212A for the lower case; U+0131, U+017F, U+00DF,
    U+0149, U+01F0, U+1E96-U+1E9A and U+FB00-U+FB06 for the upper case);
    every other unit is left in place, its real image being non-ASCII as
    well.  The source only ever compares a case-mapped string with an ASCII
    literal, a comparison this model decides like the real mapping. *)
Definition lowerUnit (c : N) : list N :=
  if ((65 <=? c) && (c <=? 90))%N then [(c + 32)%N]
  else if (c =? 304)%N then [105; 775]%N
  else if (c =? 8490)%N then [107]%N
  else [c].

Definition toLowerCase (s : jsstring) : jsstring := flat_map lowerUnit s.

Definition upperUnit (c : N) : list N :=
  if ((97 <=? c) && (c <=? 122))%N then [(c - 32)%N]
  else if (c =? 305)%N then [73]%N
  else if (c =? 383)%N then [83]%N
  else if (c =? 223)%N then [83; 83]%N
  else if (c =? 329)%N then [700; 78]%N
  else if (c =? 496)%N then [74; 780]%N
  else if (c =? 7830)%N then [72; 817]%N
  else if (c =? 7831)%N then [84; 776]%N
  else if (c =? 7832)%N then [87; 778]%N
  else if (c =? 7833)%N then [89; 778]%N
  else if (c =? 7834)%N then [65; 702]%N
  else if (c =? 64256)%N then [70; 70]%N
  else if (c =? 64257)%N then [70; 73]%N
  else if (c =? 64258)%N then [70; 76]%N
  else if (c =? 64259)%N then [70; 70; 73]%N
  else if (c =? 64260)%N then [70; 70; 76]%N
  else if ((c =? 64261) || (c =? 64262))%N then [83; 84]%N
  else [c].

Definition toUpperCase (s : jsstring) : jsstring := flat_map upperUnit s.

(** *** Regular expressions

    The one pattern of the source, [/^\d+x\d+$/], has no flags: [^] and [$]
    anchor at the two ends of the subject, so [test] is a whole-string
    match, decided here by derivatives. *)
Inductive regex : Type :=
| RNone
| REps
| RClass (p : N -> bool)
| RSeq (r1 r2 : regex)
| RAlt (r1 r2 : regex)
| RStar (r : regex).

Definition RPlus (r : regex) : regex := RSeq r (RStar r).
Definition RChar (c : N) : regex := RClass (unit_eqb c).

Fixpoint nullable (r : regex) : bool :=
  match r with
  | RNone => false
  | REps => true
  | RClass _ => false
  | RSeq r1 r2 => nullable r1 && nullable r2
  | RAlt r1 r2 => nullable r1 || nullable r2
  | RStar _ => true
  end.

Fixpoint deriv (c : N) (r : regex) : regex :=
  match r with
  | RNone => RNone
  | REps => RNone
  | RClass p => if p c then REps else RNone
  | RSeq r1 r2 =>
      if nullable r1 then RAlt (RSeq (deriv c r1) r2) (deriv c r2)
      else RSeq (deriv c r1) r2
  | RAlt r1 r2 => RAlt (deriv c r1) (deriv c r2)
  | RStar r1 => RSeq (deriv c r1) (RStar r1)
  end.

Fixpoint test (r : regex) (s : jsstring) : bool :=
  match s with
  | [] => nullable r
  | c :: s' => test (deriv c r) s'
  end.

(** The language of a regular expression, for the correctness of [test]. *)
Inductive matches : regex -> jsstring -> Prop :=
| MEps : matches REps []
| MClass p c : p c = true -> matches (RClass p) [c]
| MSeq r1 r2 s1 s2 :
    matches r1 s1 -> matches r2 s2 -> matches (RSeq r1 r2) (s1 ++ s2)
| MAltL r1 r2 s : matches r1 s -> matches (RAlt r1 r2) s
| MAltR r1 r2 s : matches r2 s -> matches (RAlt r1 r2) s
| MStarNil r : matches (RStar r) []
| MStarCons r s1 s2 :
    matches r s1 -> matches (RStar r) s2 -> matches (RStar r) (s1 ++ s2).

(** *** Numbers and [parseInt] *)

(** [Int z] is the Number value that ECMAScript assigns to the mathematical
    integer [z]: [z] itself as long as its magnitude is at most 2^53, and
    beyond that the double nearest to it, or Infinity.  [Int] is therefore
    the integer itself only within that range, and above it two different
    [z] may stand for one Number; a statement that speaks of the integer
    itself bounds it by 2^53. *)
Inductive number : Type :=
| NaN
| Int (z : Z).

Definition digitValue (c : N) : Z := Z.of_N c - 48.

(** The value of a digit sequence read left to right. *)
Definition decimal (ds : jsstring) : Z :=
  fold_left (fun acc c => 10 * acc + digitValue c)%Z ds 0%Z.

(** [parseInt(v, 10)]: the argument is converted to a string ([undefined]
    becomes the text "undefined"), leading white space is skipped, one
    sign is read, and the longest prefix of decimal digits is the result;
    an empty prefix gives [NaN].  With the radix given as 10 no "0x" prefix
    is recognised. *)
Definition parseInt10 (v : option jsstring) : number :=
  let s := match v with
           | None => lit "undefined"
           | Some s => s
           end in
  let s := trimStart s in
  let '(sign, s) :=
    match s with
    | c :: s' =>
        if unit_eqb c 45 then ((-1)%Z, s')
        else if unit_eqb c 43 then (1%Z, s')
        else (1%Z, s)
    | [] => (1%Z, s)
    end in
  match takeWhile isDigit s with
  | [] => NaN
  | ds => Int (sign * decimal ds)
  end.

(** *** Values that reach [JSON.stringify] *)

Inductive value : Type :=
| VUndefined
| VNull
| VNum (n : number)
| VStr (s : jsstring)
| VArr (items : list value)
| VObj (props : list (string * value)).

(** ToBoolean *)
Definition truthy (v : value) : bool :=
  match v with
  | VUndefined | VNull => false
  | VNum NaN => false
  | VNum (Int z) => negb (Z.eqb z 0)
  | VStr s => match s with [] => false | _ => true end
  | VArr _ | VObj _ => true
  end.

(** [o.k] *)
Fixpoint getProp (k : string) (props : list (string * value)) : value :=
  match props with
  | [] => VUndefined
  | (k', v) :: rest => if String.eqb k k' then v else getProp k rest
  end.

(** [o.k = v]: an own property keeps its place, a new one is added last. *)
Fixpoint setProp (k : string) (v : value) (props : list (string * value))
  : list (string * value) :=
  match props with
  | [] => [(k, v)]
  | (k', v') :: rest =>
      if String.eqb k k' then (k, v) :: rest
      else (k', v') :: setProp k v rest
  end.

(** An array that is [null] or a list, the [Array|null] of the JSDoc. *)
Definition sizes := option (list value).

Definition ofSizes (x : sizes) : value :=
  match x with
  | None => VNull
  | Some l => VArr l
  end.

End JS.

Import JS.

(** ** The Node runtime as seen by the scripts

    A run is driven by the lines that arrive on standard input and leaves a
    transcript of what the script wrote or asked the runtime to do. *)

Module Node.

Inductive stdio : Type := Inherit | Pipe | Ignore.

Inductive event : Type :=
| Prompt (query : string)                 (* rl.question writes the query *)
| Log (msg : string)                      (* console.log of a text *)
| LogJson (v : value)                     (* console.log(JSON.stringify(v, null, 2)) *)
| LogError (msg : string)                 (* console.error *)
| RlClose                                 (* rl.close() *)
| Spawn (cmd : string) (args : list string) (io : list stdio)
| Exit (code : Z).                        (* process.exit *)

Record world : Type := mkWorld {
  stdin : list jsstring;      (* lines not yet read *)
  stdout : list event         (* transcript, oldest first *)
}.

(** An awaited question whose line never arrives leaves the promise
    pending: the async function does not continue, whether the user is
    still to type or standard input has ended (the process then exits with
    the promise unsettled). *)
Inductive outcome (A : Type) : Type :=
| Done (a : A) (w : world)
| Pending (w : world).

Arguments Done {A} a w.
Arguments Pending {A} w.

Definition M (A : Type) : Type := world -> outcome A.

Definition ret {A} (a : A) : M A := fun w => Done a w.

Definition bind {A B} (c : M A) (k : A -> M B) : M B :=
  fun w =>
    match c w with
    | Done a w' => k a w'
    | Pending w' => Pending w'
    end.

Definition emit (e : event) : M unit :=
  fun w => Done tt (mkWorld (stdin w) (stdout w ++ [e])).

Definition consoleLog (msg : string) : M unit := emit (Log msg).

Definition rlClose : M unit := emit RlClose.

(** [askQuestion(query)]: the promise of [rl.question(query, resolve)]. *)
Definition askQuestion (query : string) : M jsstring :=
  fun w =>
    match stdin w with
    | [] => Pending (mkWorld [] (stdout w ++ [Prompt query]))
    | line :: rest => Done line (mkWorld rest (stdout w ++ [Prompt query]))
    end.

End Node.

Import Node.

Declare Scope io_scope.
Delimit Scope io_scope with io.
Notation "x <- c ;; k" := (bind c (fun x => k))
  (at level 61, c at next level, right associativity) : io_scope.
Notation "c ;;; k" := (bind c (fun _ => k))
  (at level 61, right associativity) : io_scope.

(** ** Functions that the three prompt scripts share verbatim *)

Module Shared.

(** [/^\d+x\d+$/] *)
Definition regexWxH : regex :=
  RSeq (RPlus (RClass isDigit)) (RSeq (RChar 120) (RPlus (RClass isDigit))).

Definition isValidFormat (input : jsstring) : bool :=
  str_eqb input [] || str_eqb input (lit "null") || test regexWxH input.

(** [const [width, height] = size.split("x")] followed by the two
    [parseInt] calls: elements past the second are dropped, a missing
    element is [undefined]. *)
Definition parsePair (size : jsstring) : value :=
  let parts := split 120 size in
  let width := nth_error parts 0 in
  let height := nth_error parts 1 in
  VArr [VNum (parseInt10 width); VNum (parseInt10 height)].

Definition parseSizes (inputSizes : jsstring) : sizes :=
  if str_eqb (toLowerCase inputSizes) (lit "null") then None
  else if match inputSizes with [] => true | _ => false end then Some []
  else Some (List.map parsePair (split 44 inputSizes)).

(** The condition of the [do ... while] of [getValidInput], which is also
    the condition under which the diagnostic is printed. *)
Definition loopCondition (input : jsstring) : bool :=
  negb (str_eqb input [])
  && negb (str_eqb (toLowerCase input) (lit "null"))
  && existsb (fun size => negb (isValidFormat (trim size))) (split 44 input).

(** [getValidInput(promptMessage)].  The loop reads one line per round, so
    it is written by recursion on the lines still to come; [diagnostic] is
    the text a script prints for a refused line. *)
Fixpoint getValidInputFrom (diagnostic promptMessage : string)
    (lines : list jsstring) (out : list event) : outcome jsstring :=
  match lines with
  | [] => Pending (mkWorld [] (out ++ [Prompt promptMessage]))
  | input :: rest =>
      if loopCondition input
      then getValidInputFrom diagnostic promptMessage rest
             (out ++ [Prompt promptMessage] ++ [Log diagnostic])
      else Done input (mkWorld rest (out ++ [Prompt promptMessage]))
  end.

Definition getValidInput (diagnostic promptMessage : string) : M jsstring :=
  fun w => getValidInputFrom diagnostic promptMessage (stdin w) (stdout w).

(** [sizes === null || sizes.length === 0] *)
Definition nullOrEmpty (x : sizes) : bool :=
  match x with
  | None => true
  | Some [] => true
  | Some (_ :: _) => false
  end.

End Shared.

Import Shared.

(** ** notAutoInsert.js *)

Module NotAutoInsert.

Local Open Scope string_scope.
Local Open Scope io_scope.

(** [sizeMap.push([[threshold], x])] *)
Definition push (sizeMap : list value) (threshold : Z) (x : value) : list value :=
  sizeMap ++ [VArr [VArr [VNum (Int threshold)]; x]].

Definition createSizeMap (desktopSizes tabletSizes mobileSizes : sizes) : value :=
  let sizeMap := [] in
  let sizeMap :=
    match desktopSizes with
    | None => push sizeMap 992 VNull
    | Some l => if (0 <? List.length l)%nat then push sizeMap 992 (VArr l) else sizeMap
    end in
  let sizeMap :=
    match tabletSizes with
    | None => push sizeMap 768 VNull
    | Some l => if (0 <? List.length l)%nat then push sizeMap 768 (VArr l) else sizeMap
    end in
  let sizeMap :=
    match mobileSizes with
    | None => push sizeMap 0 VNull
    | Some l => if (0 <? List.length l)%nat then push sizeMap 0 (VArr l) else sizeMap
    end in
  VObj [("sizeMap", VArr sizeMap)].

Definition diagnostic : string :=
  "Format is not correct. Please enter sizes in WidthxHeight format (e.g., 150x50), or type 'null' to use a null value.".

Definition instruction : string :=
  "Enter sizes in comma separated WidthxHeight format (without spaces). Leave empty to skip, or type 'null' to set a null value.".

Definition getValidInput : string -> M jsstring := Shared.getValidInput diagnostic.

Definition generateSizeMap : M unit :=
  consoleLog instruction ;;;
  desktopInput <- getValidInput "Enter Desktop sizes: " ;;
  tabletInput <- getValidInput "Enter Tablet sizes: " ;;
  mobileInput <- getValidInput "Enter Mobile sizes: " ;;
  rlClose ;;;
  let desktopSizes := parseSizes desktopInput in
  let tabletSizes := parseSizes tabletInput in
  let mobileSizes := parseSizes mobileInput in
  if nullOrEmpty desktopSizes && nullOrEmpty tabletSizes && nullOrEmpty mobileSizes
  then consoleLog "No size config needed"
  else
    let jsonOutput := createSizeMap desktopSizes tabletSizes mobileSizes in
    emit (LogJson jsonOutput).

End NotAutoInsert.

(** ** sizeMapRef.js *)

Module SizeMapRef.

Local Open Scope string_scope.
Local Open Scope io_scope.

(** [x !== null ? x : null] *)
Definition orNull (x : sizes) : value :=
  match x with
  | Some l => VArr l
  | None => VNull
  end.

Definition createSizeMap (desktopSizes tabletSizes mobileSizes : sizes) : value :=
  let sizeMap := [] in
  let sizeMap := NotAutoInsert.push sizeMap 992 (orNull desktopSizes) in
  let sizeMap := NotAutoInsert.push sizeMap 768 (orNull tabletSizes) in
  let sizeMap := NotAutoInsert.push sizeMap 0 (orNull mobileSizes) in
  VObj [("sizeMap", VArr sizeMap)].

Definition getValidInput : string -> M jsstring :=
  Shared.getValidInput NotAutoInsert.diagnostic.

Definition generateSizeMap : M unit :=
  consoleLog NotAutoInsert.instruction ;;;
  desktopInput <- getValidInput "Enter Desktop sizes: " ;;
  tabletInput <- getValidInput "Enter Tablet sizes: " ;;
  mobileInput <- getValidInput "Enter Mobile sizes: " ;;
  rlClose ;;;
  let desktopSizes := parseSizes desktopInput in
  let tabletSizes := parseSizes tabletInput in
  let mobileSizes := parseSizes mobileInput in
  let jsonOutput := createSizeMap desktopSizes tabletSizes mobileSizes in
  emit (LogJson jsonOutput).

End SizeMapRef.

(** ** The first-plus-extensions prompt script *)

Module EnvExt.

Local Open Scope string_scope.
Local Open Scope io_scope.

(** The state that the callback of [inputs.forEach] updates: the
    properties of [result] and the array [envExt]. *)
Definition acc : Type := (list (string * value) * list value)%type.

(** One call of the callback, [(sizes, index) => ...]. *)
Definition visit (devices : list jsstring) (a : acc) (sizes : JS.sizes)
    (index : nat) : acc :=
  let '(result, envExt) := a in
  let envs := match nth_error devices index with
              | Some d => VStr d
              | None => VUndefined
              end in
  if nullOrEmpty sizes then a
  else if negb (truthy (getProp "sizes" result))
  then (setProp "envs" envs (setProp "sizes" (ofSizes sizes) result), envExt)
  else (result,
        (envExt ++ [VObj [("sizes", ofSizes sizes); ("envs", envs)]])%list).

Fixpoint forEach (devices : list jsstring) (inputs : list JS.sizes)
    (index : nat) (a : acc) : acc :=
  match inputs with
  | [] => a
  | sizes :: rest => forEach devices rest (S index) (visit devices a sizes index)
  end.

Definition generateSizeMap (inputs : list JS.sizes) (devices : list jsstring)
  : value :=
  let '(result, envExt) := forEach devices inputs 0 ([], []) in
  let result :=
    if (0 <? List.length envExt)%nat
    then setProp "envExt" (VArr envExt) result
    else result in
  VObj result.

Definition diagnostic : string :=
  "Invalid format. Enter sizes in WidthxHeight format (e.g., 150x50), or type 'null' to set a null value.".

Definition instruction : string :=
  "Enter sizes in WidthxHeight format (comma-separated, e.g., 150x50). Leave empty to skip or type 'null' to set a null value.".

Definition getValidInput : string -> M jsstring := Shared.getValidInput diagnostic.

Definition devices : list jsstring := [lit "d"; lit "t"; lit "m"].

Definition processInputs : M unit :=
  consoleLog instruction ;;;
  desktopInput <- getValidInput "Enter Desktop sizes: " ;;
  tabletInput <- getValidInput "Enter Tablet sizes: " ;;
  mobileInput <- getValidInput "Enter Mobile sizes: " ;;
  rlClose ;;;
  let inputs :=
    [parseSizes desktopInput; parseSizes tabletInput; parseSizes mobileInput] in
  let sizeMap := generateSizeMap inputs devices in
  emit (LogJson sizeMap).

End EnvExt.

(** ** main.js, the launcher *)

Module Launcher.

Local Open Scope string_scope.

(** What the child process object reports first: ['error'] when the
    process could not be started, else ['close'] with the exit code, which
    is [null] when a signal ended the child. *)
Inductive childEvent : Type :=
| ChildError (message : string)
| ChildClose (code : option Z).

(** The text of [${code}]. *)
Definition showCode (code : option Z) : string :=
  match code with
  | None => "null"
  | Some z => DecimalString.NilZero.string_of_int (Z.to_int z)
  end.

(** [process.exit(code)]: [null] leaves the default exit code 0. *)
Definition processExit (code : option Z) : event :=
  match code with
  | Some z => Exit z
  | None => Exit 0
  end.

(** [executeScript(scriptName)], together with the one handler that the
    child's first event runs; both handlers end in [process.exit]. *)
Definition executeScript (child : string -> childEvent) (scriptName : string)
  : list event :=
  ([RlClose; Spawn "node" [scriptName] [Inherit; Inherit; Inherit]]
   ++ match child scriptName with
      | ChildClose code =>
          [Log ("Script " ++ scriptName ++ " exited with code " ++ showCode code);
           processExit code]
      | ChildError message =>
          [LogError ("Failed to start script: " ++ message);
           processExit (Some 1%Z)]
      end)%list.

(** The double quote, for the texts that contain one. *)
Definition dq : string := String (Ascii.ascii_of_nat 34) EmptyString.

Definition menu : string :=
  "Enter " ++ dq ++ "A" ++ dq ++ " for Autoinsert, or " ++ dq ++ "E" ++ dq
  ++ " for everything else:".

Definition invalidChoice : string :=
  "Invalid choice. Please enter " ++ dq ++ "A" ++ dq ++ " or " ++ dq ++ "E"
  ++ dq ++ ".".

(** [startScript()]: every call prints the menu and asks for one line; the
    callback either launches a script or calls [startScript] again, so the
    function recurses on the lines still to come.  When no line is left the
    question stays unanswered and the transcript ends there. *)
Fixpoint startScript (child : string -> childEvent) (lines : list jsstring)
  : list event :=
  ([Log menu; Prompt "> "]
   ++ match lines with
      | [] => []
      | input :: rest =>
          let choice := toUpperCase (trim input) in
          if str_eqb choice (lit "A") then
            Log "Starting autoInsert.js..." :: executeScript child "autoInsert.js"
          else if str_eqb choice (lit "E") then
            Log "Starting notAutoInsert.js..."
            :: executeScript child "notAutoInsert.js"
          else
            Log invalidChoice :: startScript child rest
      end)%list.

(** The code the launcher process ends with, if the transcript ends in
    [process.exit]. *)
Definition exitCode (t : list event) : option Z :=
  match last t RlClose with
  | Exit c => Some c
  | _ => None
  end.

End Launcher.

(** ** The vocabulary of the specification *)

Module Spec.

(** A case-insensitive spelling of the literal "null". *)
Definition nullLiteralCI (s : jsstring) : Prop :=
  exists a b c d : N,
    s = [a; b; c; d]
    /\ (a = 110 \/ a = 78)%N /\ (b = 117 \/ b = 85)%N
    /\ (c = 108 \/ c = 76)%N /\ (d = 108 \/ d = 76)%N.

(** A non-empty run of decimal digits. *)
Definition digits (s : jsstring) : Prop :=
  s <> [] /\ Forall (fun c => isDigit c = true) s.

(** A "WidthxHeight" token: digits, a lower-case x, digits. *)
Definition WxH (s : jsstring) : Prop :=
  exists w h : jsstring, digits w /\ digits h /\ s = w ++ 120%N :: h.

(** The lines that the specification calls acceptable: empty, a spelling
    of "null", or a comma-separated list whose trimmed tokens are all
    "WidthxHeight" tokens. *)
Definition acceptable (line : jsstring) : Prop :=
  line = [] \/ nullLiteralCI line
  \/ Forall (fun tok => WxH (trim tok)) (split 44 line).

(** The same with the two further tokens that [isValidFormat] lets
    through: the empty token and the exact, lower-case token "null". *)
Definition tokenTolerated (tok : jsstring) : Prop :=
  trim tok = [] \/ trim tok = lit "null" \/ WxH (trim tok).

Definition tolerated (line : jsstring) : Prop :=
  line = [] \/ nullLiteralCI line \/ Forall tokenTolerated (split 44 line).

(** What one round of the validation loop does with the line it reads. *)
Definition accepts (diagnostic promptMessage : string) (line : jsstring) : Prop :=
  forall rest out,
    getValidInputFrom diagnostic promptMessage (line :: rest) out
    = Done line (mkWorld rest (out ++ [Prompt promptMessage])).

Definition rejects (diagnostic promptMessage : string) (line : jsstring) : Prop :=
  forall rest out,
    getValidInputFrom diagnostic promptMessage (line :: rest) out
    = getValidInputFrom diagnostic promptMessage rest
        (out ++ [Prompt promptMessage] ++ [Log diagnostic]).

(** A token stands for the pair (w, h) when, trimmed, it is the decimal
    notation of w, an x, and the decimal notation of h. *)
Definition tokenDenotes (tok : jsstring) (p : Z * Z) : Prop :=
  exists ws hs : jsstring,
    digits ws /\ digits hs /\ trim tok = ws ++ 120%N :: hs
    /\ fst p = decimal ws /\ snd p = decimal hs.

(** The JavaScript array [[w, h]]. *)
Definition pairValue (p : Z * Z) : value :=
  VArr [VNum (Int (fst p)); VNum (Int (snd p))].

(** A category takes part in the list of breakpoints when it is the
    explicit null or a non-empty sequence. *)
Definition contributes (x : sizes) : bool :=
  match x with
  | None => true
  | Some [] => false
  | Some (_ :: _) => true
  end.

(** One entry of the list of breakpoints, [[[threshold], sizesOrNull]]. *)
Definition entry (tx : Z * sizes) : value :=
  VArr [VArr [VNum (Int (fst tx))]; ofSizes (snd tx)].

(** A category is kept by the first-plus-extensions policy when it is a
    non-empty sequence. *)
Definition kept (xl : sizes * jsstring) : bool := negb (nullOrEmpty (fst xl)).

(** An element of the extensions list, [{ sizes, envs }]. *)
Definition slot (xl : sizes * jsstring) : value :=
  VObj [("sizes"%string, ofSizes (fst xl)); ("envs"%string, VStr (snd xl))].

(** The object built from the kept categories, first to last. *)
Definition firstPlusExtensions (keptCategories : list (sizes * jsstring)) : value :=
  match keptCategories with
  | [] => VObj []
  | first :: more =>
      VObj ([("sizes"%string, ofSizes (fst first));
             ("envs"%string, VStr (snd first))]
            ++ match more with
               | [] => []
               | _ :: _ => [("envExt"%string, VArr (List.map slot more))]
               end)
  end.

(** The lines of a stream that the validation loop lets through. *)
Definition acceptedLines (lines : list jsstring) : list jsstring :=
  filter (fun line => negb (loopCondition line)) lines.

(** Prompts and texts, as opposed to JSON output. *)
Definition isText (e : event) : Prop :=
  match e with
  | Prompt _ | Log _ => True
  | _ => False
  end.

Definition isJson (e : event) : Prop :=
  match e with
  | LogJson _ => True
  | _ => False
  end.

(** The last thing a finished run wrote. *)
Definition finalEvent (o : outcome unit) : option event :=
  match o with
  | Done _ w => Some (last (stdout w) RlClose)
  | Pending _ => None
  end.

(** What each script writes last, as a function of the three lines it
    accepted. *)
Definition resultNotAutoInsert (d t m : jsstring) : event :=
  if nullOrEmpty (parseSizes d) && nullOrEmpty (parseSizes t)
     && nullOrEmpty (parseSizes m)
  then Log "No size config needed"%string
  else LogJson (NotAutoInsert.createSizeMap (parseSizes d) (parseSizes t)
                  (parseSizes m)).

Definition resultSizeMapRef (d t m : jsstring) : event :=
  LogJson (SizeMapRef.createSizeMap (parseSizes d) (parseSizes t) (parseSizes m)).

Definition resultEnvExt (d t m : jsstring) : event :=
  LogJson (EnvExt.generateSizeMap [parseSizes d; parseSizes t; parseSizes m]
             EnvExt.devices).

(** The launcher's reading of a line: "A" or "E" in either case, white
    space around it ignored. *)
Definition choiceOf (input : jsstring) : option string :=
  let t := trim input in
  if str_eqb t (lit "a") || str_eqb t (lit "A") then Some "autoInsert.js"%string
  else if str_eqb t (lit "e") || str_eqb t (lit "E") then Some "notAutoInsert.js"%string
  else None.

(** One refused round of the launcher's menu. *)
Definition refusedRound : list event :=
  [Log Launcher.menu; Prompt "> "; Log Launcher.invalidChoice].

(** A category that is null or a non-empty list. *)
Definition nullOrNonEmpty (x : sizes) : Prop :=
  x = None \/ exists v l, x = Some (v :: l).

(** The transcript of the rounds in which the loop refuses the lines
    [bad]: a prompt and the diagnostic for each. *)
Definition refusedLines (diagnostic promptMessage : string)
    (bad : list jsstring) : list event :=
  flat_map (fun _ => [Prompt promptMessage; Log diagnostic]) bad.

(** A pair of two integers, and the pair [parseInt] leaves when it finds no
    digits on either side. *)
Definition isIntPair (v : value) : Prop :=
  exists w h : Z, v = VArr [VNum (Int w); VNum (Int h)].

Definition nanPair : value := VArr [VNum NaN; VNum NaN].

(** An entry of the list of breakpoints that carries sizes, not null. *)
Definition hasSizes (e : value) : Prop :=
  exists (threshold : Z) (v : value) (l : list value),
    e = VArr [VArr [VNum (Int threshold)]; VArr (v :: l)].

(** [devices[index]] as a value. *)
Definition labelAt (devices : list jsstring) (index : nat) : value :=
  match nth_error devices index with
  | Some d => VStr d
  | None => VUndefined
  end.

(** The first-plus-extensions shape over categories paired with whatever
    [devices[index]] gave. *)
Definition keptAt (xl : sizes * value) : bool := negb (nullOrEmpty (fst xl)).

Definition slotAt (xl : sizes * value) : value :=
  VObj [("sizes"%string, ofSizes (fst xl)); ("envs"%string, snd xl)].

Definition firstPlusExtensionsAt (keptCategories : list (sizes * value)) : value :=
  match keptCategories with
  | [] => VObj []
  | first :: more =>
      VObj ([("sizes"%string, ofSizes (fst first)); ("envs"%string, snd first)]
            ++ match more with
               | [] => []
               | _ :: _ => [("envExt"%string, VArr (List.map slotAt more))]
               end)
  end.

(** The categories of a call [generateSizeMap(inputs, devices)]. *)
Definition categoriesAt (inputs : list sizes) (devices : list jsstring)
    (index : nat) : list (sizes * value) :=
  combine inputs (List.map (labelAt devices) (seq index (List.length inputs))).

Definition isSpawn (e : event) : bool :=
  match e with
  | Spawn _ _ _ => true
  | _ => false
  end.

(** A digit run whose value is at most 2^53: every such integer is a
    Number, so [parseInt] returns it exactly. *)
Definition exactDigits (s : jsstring) : Prop :=
  digits s /\ (decimal s <= 2 ^ 53)%Z.

(** A "WidthxHeight" token whose width and height are at most 2^53. *)
Definition exactWxH (s : jsstring) : Prop :=
  exists w h : jsstring, exactDigits w /\ exactDigits h /\ s = w ++ 120%N :: h.

(** A token reads as the pair (w, h) when, trimmed, it is such a token and
    its runs are the decimal notations of w and h. *)
Definition tokenReads (tok : jsstring) (p : Z * Z) : Prop :=
  exists ws hs : jsstring,
    exactDigits ws /\ exactDigits hs /\ trim tok = ws ++ 120%N :: hs
    /\ fst p = decimal ws /\ snd p = decimal hs.


(** An array of two numbers neither of which is [NaN]. *)
Definition noNaNPair (v : value) : Prop :=
  exists a b : number, v = VArr [VNum a; VNum b] /\ a <> NaN /\ b <> NaN.

(** What a prompt script writes before it has its three lines: its
    instruction, its diagnostic, and prompts. *)
Definition scriptOutput (instruction diagnostic : string) (e : event) : Prop :=
  e = Log instruction \/ e = Log diagnostic \/ exists q, e = Prompt q.

End Spec.

Import Spec.

(** Turns the comparisons of a character class into arithmetic. *)
Ltac unit_facts :=
  unfold isDigit, isWhiteSpace, unit_eqb in *;
  repeat match goal with
  | H : _ = false |- _ => apply not_true_iff_false in H
  | |- _ = false => apply not_true_iff_false; intro
  end;
  rewrite ?orb_true_iff, ?andb_true_iff, ?N.leb_le, ?N.eqb_eq in *.

(** * Properties *)

(** ** Strings *)

Lemma str_eqb_eq (s t : jsstring) : str_eqb s t = true <-> s = t.
Proof.
  revert t; induction s as [|a s IH]; intros [|b t]; simpl; split;
    try congruence; try reflexivity.
  - intros H. apply andb_true_iff in H as [Hab Hst].
    apply N.eqb_eq in Hab. apply IH in Hst. congruence.
  - intros H. injection H as -> ->. apply andb_true_iff. split.
    + apply N.eqb_refl.
    + now apply IH.
Qed.

Lemma str_eqb_neq (s t : jsstring) : str_eqb s t = false <-> s <> t.
Proof.
  rewrite <- not_true_iff_false, str_eqb_eq. reflexivity.
Qed.

Lemma digit_not_space c : isDigit c = true -> isWhiteSpace c = false.
Proof. intros H. unit_facts. lia. Qed.

Lemma space_not_digit c : isWhiteSpace c = true -> isDigit c = false.
Proof. intros H. unit_facts. lia. Qed.

Lemma digit_not_unit c k :
  isDigit c = true -> (k < 48 \/ 57 < k)%N -> unit_eqb c k = false.
Proof. intros H Hk. unit_facts. lia. Qed.

Lemma space_not_x c : isWhiteSpace c = true -> unit_eqb c 120 = false.
Proof. intros H. unit_facts. lia. Qed.

Lemma dropWhile_split p s :
  exists pre, s = pre ++ dropWhile p s /\ Forall (fun c => p c = true) pre.
Proof.
  induction s as [|c s [pre [E F]]]; simpl.
  - exists []. split; [reflexivity | constructor].
  - destruct (p c) eqn:Hc.
    + exists (c :: pre). split; [simpl; congruence | now constructor].
    + exists []. split; [reflexivity | constructor].
Qed.

Lemma dropWhile_app p pre s :
  Forall (fun c => p c = true) pre ->
  dropWhile p (pre ++ s) = dropWhile p s.
Proof.
  induction 1 as [|c pre Hc _ IH]; simpl; [reflexivity|].
  now rewrite Hc.
Qed.

Lemma takeWhile_app p h post :
  Forall (fun c => p c = true) h ->
  Forall (fun c => p c = false) post ->
  takeWhile p (h ++ post) = h.
Proof.
  intros Hh Hpost. induction Hh as [|c h Hc _ IH]; simpl.
  - destruct Hpost as [|c post Hc _]; simpl; [reflexivity | now rewrite Hc].
  - rewrite Hc. now f_equal.
Qed.

(** A trimmed string sits inside the original between two runs of white
    space. *)
Lemma trim_split s :
  exists pre post,
    s = pre ++ trim s ++ post
    /\ Forall (fun c => isWhiteSpace c = true) pre
    /\ Forall (fun c => isWhiteSpace c = true) post.
Proof.
  unfold trim, trimEnd, trimStart.
  destruct (dropWhile_split isWhiteSpace s) as [pre [E Fpre]].
  destruct (dropWhile_split isWhiteSpace (rev (dropWhile isWhiteSpace s)))
    as [tsop [E' Fpost]].
  exists pre, (rev tsop). repeat split.
  - rewrite E at 1. f_equal.
    rewrite <- rev_app_distr, <- E'. now rewrite rev_involutive.
  - exact Fpre.
  - apply Forall_rev. exact Fpost.
Qed.

Lemma split_no_sep sep s :
  Forall (fun c => unit_eqb c sep = false) s -> split sep s = [s].
Proof.
  induction 1 as [|c s Hc _ IH]; simpl; [reflexivity|].
  now rewrite Hc, IH.
Qed.

Lemma split_app_sep sep a b :
  Forall (fun c => unit_eqb c sep = false) a ->
  split sep (a ++ sep :: b) = a :: split sep b.
Proof.
  induction 1 as [|c a Hc _ IH]; simpl.
  - unfold unit_eqb. now rewrite N.eqb_refl.
  - now rewrite Hc, IH.
Qed.

Lemma split_not_nil sep s : split sep s <> [].
Proof.
  destruct s as [|c s]; simpl; [discriminate|].
  destruct (unit_eqb c sep); [discriminate|].
  destruct (split sep s); discriminate.
Qed.

(** ** Regular expressions: [test] decides the language *)

Lemma nullable_matches r : nullable r = true <-> matches r [].
Proof.
  induction r as [| |p|r1 IH1 r2 IH2|r1 IH1 r2 IH2|r IH]; simpl.
  - split; [discriminate | intros H; inversion H].
  - split; [constructor | reflexivity].
  - split; [discriminate | intros H; inversion H].
  - rewrite andb_true_iff, IH1, IH2. split.
    + intros [H1 H2]. change (@nil N) with (@nil N ++ []). now constructor.
    + intros H. inversion H as [| |? ? s1 s2 M1 M2 E1 E2| | | |]; subst.
      apply app_eq_nil in E2 as [-> ->]. now split.
  - rewrite orb_true_iff, IH1, IH2. split.
    + intros [H|H]; [now apply MAltL | now apply MAltR].
    + intros H. inversion H; subst; [now left | now right].
  - split; [constructor | reflexivity].
Qed.

Lemma deriv_sound c r : forall s, matches (deriv c r) s -> matches r (c :: s).
Proof.
  induction r as [| |p|r1 IH1 r2 IH2|r1 IH1 r2 IH2|r IH]; simpl; intros s H.
  - inversion H.
  - inversion H.
  - destruct (p c) eqn:Hc; inversion H; subst. now constructor.
  - destruct (nullable r1) eqn:Hn.
    + inversion H as [| | |? ? ? HL|? ? ? HR| |]; subst.
      * inversion HL as [| |? ? s1 s2 M1 M2| | | |]; subst.
        change (c :: s1 ++ s2) with ((c :: s1) ++ s2).
        constructor; [now apply IH1 | assumption].
      * change (c :: s) with ([] ++ c :: s).
        constructor; [now apply nullable_matches | now apply IH2].
    + inversion H as [| |? ? s1 s2 M1 M2| | | |]; subst.
      change (c :: s1 ++ s2) with ((c :: s1) ++ s2).
      constructor; [now apply IH1 | assumption].
  - inversion H; subst; [apply MAltL, IH1 | apply MAltR, IH2]; assumption.
  - inversion H as [| |? ? s1 s2 M1 M2| | | |]; subst.
    change (c :: s1 ++ s2) with ((c :: s1) ++ s2).
    constructor; [now apply IH | assumption].
Qed.

Lemma deriv_complete c r cs :
  matches r cs -> forall s, cs = c :: s -> matches (deriv c r) s.
Proof.
  induction 1 as [|p d Hd|r1 r2 s1 s2 M1 IH1 M2 IH2|r1 r2 s0 M IH
                  |r1 r2 s0 M IH|r|r s1 s2 M1 IH1 M2 IH2];
    intros s E; simpl.
  - discriminate.
  - injection E as -> <-. rewrite Hd. constructor.
  - destruct s1 as [|d s1]; simpl in E.
    + assert (Hn : nullable r1 = true) by now apply nullable_matches.
      rewrite Hn. apply MAltR. now apply IH2.
    + injection E as -> <-.
      destruct (nullable r1); [apply MAltL|]; constructor;
        try assumption; now apply IH1.
  - apply MAltL. now apply IH.
  - apply MAltR. now apply IH.
  - discriminate.
  - destruct s1 as [|d s1]; simpl in E.
    + now apply IH2.
    + injection E as -> <-. constructor; [now apply IH1 | assumption].
Qed.

Lemma test_matches r s : test r s = true <-> matches r s.
Proof.
  revert r; induction s as [|c s IH]; intros r; simpl.
  - apply nullable_matches.
  - rewrite IH. split.
    + apply deriv_sound.
    + intros H. now apply (deriv_complete c r (c :: s) H).
Qed.

Lemma matches_star_class p s :
  matches (RStar (RClass p)) s <-> Forall (fun c => p c = true) s.
Proof.
  split.
  - intros H. remember (RStar (RClass p)) as r eqn:Er.
    induction H as [| | | | | |r0 s1 s2 M1 _ M2 IH2]; try discriminate.
    + constructor.
    + injection Er as ->. inversion M1; subst. simpl.
      constructor; [assumption | now apply IH2].
  - induction 1 as [|c s Hc _ IH].
    + constructor.
    + change (c :: s) with ([c] ++ s).
      constructor; [now constructor | assumption].
Qed.

Lemma matches_plus_class p s :
  matches (RPlus (RClass p)) s <-> s <> [] /\ Forall (fun c => p c = true) s.
Proof.
  unfold RPlus. split.
  - intros H. inversion H as [| |? ? s1 s2 M1 M2| | | |]; subst.
    inversion M1; subst. simpl. split; [discriminate|].
    constructor; [assumption | now apply matches_star_class].
  - intros [Hne HF]. destruct HF as [|c s Hc HF]; [congruence|].
    change (c :: s) with ([c] ++ s).
    constructor; [now constructor | now apply matches_star_class].
Qed.

(** The language of [/^\d+x\d+$/] is the set of "WidthxHeight" tokens. *)
Lemma regexWxH_language s : test regexWxH s = true <-> WxH s.
Proof.
  rewrite test_matches. unfold regexWxH, WxH, digits. split.
  - intros H. inversion H as [| |? ? w s2 Mw M2| | | |]; subst.
    inversion M2 as [| |? ? sx h Mx Mh| | | |]; subst.
    inversion Mx as [|? c Hc| | | | |]; subst.
    apply N.eqb_eq in Hc. subst c.
    exists w, h. split; [|split].
    + now apply matches_plus_class.
    + now apply matches_plus_class.
    + reflexivity.
  - intros [w [h [Hw [Hh ->]]]].
    constructor; [now apply matches_plus_class|].
    change (120%N :: h) with ([120%N] ++ h).
    constructor; [|now apply matches_plus_class].
    constructor. apply N.eqb_refl.
Qed.

(** ** Case mapping against the literals of the source *)

Lemma lowerUnit_head c :
  exists x tl,
    lowerUnit c = x :: tl
    /\ (tl = [] \/ x = 105%N)
    /\ ((x = 110 -> c = 110 \/ c = 78)
        /\ (x = 117 -> c = 117 \/ c = 85)
        /\ (x = 108 -> c = 108 \/ c = 76))%N.
Proof.
  unfold lowerUnit.
  destruct ((65 <=? c) && (c <=? 90))%N eqn:Hup.
  - exists (c + 32)%N, []. apply andb_true_iff in Hup as [H1 H2].
    apply N.leb_le in H1, H2. repeat split; auto; lia.
  - destruct (N.eqb_spec c 304) as [->|H304].
    + exists 105%N, [775%N]. repeat split; auto; lia.
    + destruct (N.eqb_spec c 8490) as [->|H8490].
      * exists 107%N, []. repeat split; auto; lia.
      * exists c, []. repeat split; auto.
Qed.

Lemma toLowerCase_nil s : toLowerCase s = [] -> s = [].
Proof.
  destruct s as [|c s]; [reflexivity|]. unfold toLowerCase. simpl.
  destruct (lowerUnit_head c) as [x [tl [E _]]]. rewrite E. discriminate.
Qed.

Lemma toLowerCase_cons c s x t :
  toLowerCase (c :: s) = x :: t -> x <> 105%N ->
  toLowerCase s = t
  /\ ((x = 110 -> c = 110 \/ c = 78)
      /\ (x = 117 -> c = 117 \/ c = 85)
      /\ (x = 108 -> c = 108 \/ c = 76))%N.
Proof.
  unfold toLowerCase. simpl. fold (toLowerCase s).
  destruct (lowerUnit_head c) as [y [tl [E [Htl Hy]]]]. rewrite E.
  simpl. intros H Hx. injection H as -> H.
  destruct Htl as [->|]; [|contradiction]. simpl in H. now split.
Qed.

(** [s.toLowerCase() === "null"] holds exactly of the sixteen spellings. *)
Lemma toLowerCase_null s :
  str_eqb (toLowerCase s) (lit "null") = true <-> nullLiteralCI s.
Proof.
  rewrite str_eqb_eq. unfold nullLiteralCI. change (lit "null") with [110; 117; 108; 108]%N.
  split.
  - intros H.
    destruct s as [|a s]; [discriminate|].
    apply toLowerCase_cons in H as [H [Ha _]]; [|lia].
    destruct s as [|b s]; [discriminate|].
    apply toLowerCase_cons in H as [H [_ [Hb _]]]; [|lia].
    destruct s as [|c s]; [discriminate|].
    apply toLowerCase_cons in H as [H [_ [_ Hc]]]; [|lia].
    destruct s as [|d s]; [discriminate|].
    apply toLowerCase_cons in H as [H [_ [_ Hd]]]; [|lia].
    apply toLowerCase_nil in H. subst s.
    exists a, b, c, d. repeat split; auto.
  - intros [a [b [c [d [-> [Ha [Hb [Hc Hd]]]]]]]].
    destruct Ha as [-> | ->], Hb as [-> | ->], Hc as [-> | ->], Hd as [-> | ->];
      reflexivity.
Qed.

Lemma upperUnit_head c :
  exists x tl,
    upperUnit c = x :: tl
    /\ ((x = 65 -> tl = [] -> c = 97 \/ c = 65)
        /\ (x = 69 -> tl = [] -> c = 101 \/ c = 69))%N.
Proof.
  unfold upperUnit.
  destruct ((97 <=? c) && (c <=? 122))%N eqn:Hlow.
  { exists (c - 32)%N, []. apply andb_true_iff in Hlow as [H1 H2].
    apply N.leb_le in H1, H2. repeat split; intros; lia. }
  repeat match goal with
  | |- context [if (?a =? ?b)%N then _ else _] =>
      destruct (N.eqb_spec a b) as [->|?]; simpl;
      [eexists _, _; split; [reflexivity|]; split; intros; try discriminate; try lia|]
  end.
  destruct ((c =? 64261) || (c =? 64262))%N.
  - exists 83%N, [84%N]. repeat split; intros; discriminate.
  - exists c, []. repeat split; auto.
Qed.

Lemma toUpperCase_single s k :
  (k = 65 \/ k = 69)%N ->
  toUpperCase s = [k] -> s = [k] \/ s = [(k + 32)%N].
Proof.
  intros Hk. destruct s as [|c s]; [discriminate|].
  unfold toUpperCase. simpl.
  destruct (upperUnit_head c) as [x [tl [E [HA HE]]]]. rewrite E. simpl.
  intros H. injection H as -> H.
  apply app_eq_nil in H as [-> Hs].
  assert (s = []) as ->.
  { destruct s as [|d s]; [reflexivity|]. simpl in Hs.
    destruct (upperUnit_head d) as [y [tl [E' _]]]. rewrite E' in Hs. discriminate. }
  destruct Hk as [-> | ->]; [destruct HA as [->| ->] | destruct HE as [->| ->]];
    auto.
Qed.

(** ** The validator *)

Lemma isValidFormat_spec t :
  isValidFormat t = true <-> (t = [] \/ t = lit "null" \/ WxH t).
Proof.
  unfold isValidFormat.
  rewrite !orb_true_iff, !str_eqb_eq, regexWxH_language. tauto.
Qed.

Lemma WxH_not_nil t : WxH t -> t <> [].
Proof.
  intros [w [h [_ [_ ->]]]]. destruct w; discriminate.
Qed.

Lemma WxH_head_digit t :
  WxH t -> exists c t', t = c :: t' /\ isDigit c = true.
Proof.
  intros [w [h [[Hne HF] [_ ->]]]].
  destruct HF as [|c w Hc _]; [congruence|]. now exists c, (w ++ 120%N :: h).
Qed.

(** The loop continues exactly on the lines outside [tolerated]. *)
Lemma loopCondition_false line : loopCondition line = false <-> tolerated line.
Proof.
  unfold loopCondition, tolerated.
  rewrite !andb_false_iff, !negb_false_iff, str_eqb_eq, toLowerCase_null.
  assert (Htok : existsb (fun size => negb (isValidFormat (trim size))) (split 44 line)
                 = false <-> Forall tokenTolerated (split 44 line)).
  { induction (split 44 line) as [|tok toks IH]; simpl.
    - split; [constructor | reflexivity].
    - rewrite orb_false_iff, negb_false_iff, isValidFormat_spec, IH. split.
      + intros [H1 H2]. now constructor.
      + intros H. inversion H; subst. now split. }
  rewrite Htok. tauto.
Qed.

(** ** The validation loop *)

(** [getValidInput] satisfies the equation of the source's loop: ask,
    then either print the diagnostic and go round again or return. *)
Lemma getValidInput_unfold diagnostic promptMessage w :
  Shared.getValidInput diagnostic promptMessage w
  = (input <- askQuestion promptMessage ;;
     if loopCondition input
     then consoleLog diagnostic ;;; Shared.getValidInput diagnostic promptMessage
     else ret input)%io w.
Proof.
  destruct w as [lines out]. unfold Shared.getValidInput, bind, askQuestion.
  simpl. destruct lines as [|input rest]; simpl; [reflexivity|].
  destruct (loopCondition input); simpl; [|reflexivity].
  now rewrite <- app_assoc.
Qed.

Lemma accepts_iff diagnostic promptMessage line :
  accepts diagnostic promptMessage line <-> loopCondition line = false.
Proof.
  unfold accepts. simpl. split.
  - intros H. specialize (H [] []). simpl in H.
    destruct (loopCondition line); [discriminate | reflexivity].
  - intros H rest out. now rewrite H.
Qed.

Lemma rejects_iff diagnostic promptMessage line :
  rejects diagnostic promptMessage line <-> loopCondition line = true.
Proof.
  unfold rejects. simpl. split.
  - intros H. specialize (H [] []). simpl in H.
    destruct (loopCondition line); [reflexivity | discriminate].
  - intros H rest out. now rewrite H.
Qed.

Lemma acceptable_tolerated line : acceptable line -> tolerated line.
Proof.
  unfold acceptable, tolerated, tokenTolerated.
  intros [H|[H|H]]; [now left | now right; left |].
  right; right. eapply Forall_impl; [|exact H]. simpl. auto.
Qed.

(** A read returns the first line of the stream that the loop lets
    through, and writes nothing but prompts and diagnostics on the way. *)
Lemma getValidInputFrom_accepted diagnostic promptMessage lines :
  forall out line more,
    acceptedLines lines = line :: more ->
    exists rest tr,
      getValidInputFrom diagnostic promptMessage lines out
      = Done line (mkWorld rest (out ++ tr))
      /\ acceptedLines rest = more /\ Forall isText tr.
Proof.
  induction lines as [|input lines IH]; intros out line more; simpl.
  - discriminate.
  - destruct (loopCondition input) eqn:Hc; simpl.
    + intros H. destruct (IH (out ++ [Prompt promptMessage; Log diagnostic])
                            line more H) as [rest [tr [E [Hrest Htr]]]].
      exists rest, ([Prompt promptMessage; Log diagnostic] ++ tr).
      split; [|split].
      * rewrite E. now rewrite <- !app_assoc.
      * exact Hrest.
      * repeat constructor. exact Htr.
    + intros H. injection H as -> <-.
      exists lines, [Prompt promptMessage]. repeat split.
      repeat constructor.
Qed.

(** ** The parser *)

Lemma parseSizes_null s : nullLiteralCI s -> parseSizes s = None.
Proof.
  intros H. apply toLowerCase_null in H. unfold parseSizes. now rewrite H.
Qed.

Lemma parseSizes_other s :
  s <> [] -> ~ nullLiteralCI s ->
  parseSizes s = Some (List.map parsePair (split 44 s)).
Proof.
  intros Hne Hnull. unfold parseSizes.
  destruct (str_eqb (toLowerCase s) (lit "null")) eqn:E.
  - apply toLowerCase_null in E. contradiction.
  - destruct s; [congruence | reflexivity].
Qed.

Lemma digits_no_x w : digits w -> Forall (fun c => unit_eqb c 120 = false) w.
Proof.
  intros [_ H]. eapply Forall_impl; [|exact H].
  intros c Hc. apply digit_not_unit; [assumption | lia].
Qed.

Lemma spaces_no_x s :
  Forall (fun c => isWhiteSpace c = true) s ->
  Forall (fun c => unit_eqb c 120 = false) s.
Proof.
  intros H. eapply Forall_impl; [|exact H]. apply space_not_x.
Qed.

(** [parseInt] of a digit run with white space before it. *)
Lemma parseInt10_width pre w :
  Forall (fun c => isWhiteSpace c = true) pre -> digits w ->
  parseInt10 (Some (pre ++ w)) = Int (decimal w).
Proof.
  intros Hpre [Hne Hw]. unfold parseInt10, trimStart.
  rewrite dropWhile_app by assumption.
  destruct Hw as [|c w Hc Hw]; [congruence|]. simpl.
  rewrite (digit_not_space c Hc).
  rewrite (digit_not_unit c 45 Hc) by lia.
  rewrite (digit_not_unit c 43 Hc) by lia.
  pose proof (takeWhile_app isDigit (c :: w) []) as T.
  rewrite app_nil_r in T. rewrite T; [|now constructor | constructor].
  f_equal. destruct (decimal (c :: w)); reflexivity.
Qed.

(** [parseInt] of a digit run with white space after it. *)
Lemma parseInt10_height h post :
  digits h -> Forall (fun c => isWhiteSpace c = true) post ->
  parseInt10 (Some (h ++ post)) = Int (decimal h).
Proof.
  intros Hh Hpost.
  assert (E : h ++ post = [] ++ h ++ post) by reflexivity.
  destruct Hh as [Hne Hh]. unfold parseInt10, trimStart.
  destruct Hh as [|c h Hc Hh]; [congruence|]. simpl.
  rewrite (digit_not_space c Hc).
  rewrite (digit_not_unit c 45 Hc) by lia.
  rewrite (digit_not_unit c 43 Hc) by lia.
  change (c :: h ++ post) with ((c :: h) ++ post).
  rewrite takeWhile_app.
  - f_equal. destruct (decimal (c :: h)); reflexivity.
  - now constructor.
  - eapply Forall_impl; [|exact Hpost]. apply space_not_digit.
Qed.

(** A token that is a "WidthxHeight" token once trimmed parses to the two
    integers its digit runs denote. *)
Lemma parsePair_WxH tok ws hs :
  digits ws -> digits hs -> trim tok = ws ++ 120%N :: hs ->
  parsePair tok = VArr [VNum (Int (decimal ws)); VNum (Int (decimal hs))].
Proof.
  intros Hw Hh E.
  destruct (trim_split tok) as [pre [post [Etok [Hpre Hpost]]]].
  rewrite E in Etok. unfold parsePair.
  replace tok with ((pre ++ ws) ++ 120%N :: (hs ++ post))
    by (rewrite Etok, <- !app_assoc; reflexivity).
  rewrite split_app_sep.
  - rewrite split_no_sep.
    + simpl. now rewrite parseInt10_width, parseInt10_height.
    + apply Forall_app. split; [now apply digits_no_x | now apply spaces_no_x].
  - apply Forall_app. split; [now apply spaces_no_x | now apply digits_no_x].
Qed.

(** ** Claims about the validation loop and the parser *)

(** C1 at its failing input: the line "150x50," has an empty second token,
    so it is none of the three shapes the claim allows (empty, a spelling of
    "null", a list of tokens matching [^\d+x\d+$]), and yet the loop accepts
    it: [isValidFormat], applied to each token, lets the empty token
    through. *)
Lemma getValidInput_accepts_trailing_comma :
  accepts NotAutoInsert.diagnostic "Enter Desktop sizes: " (lit "150x50,")
  /\ ~ acceptable (lit "150x50,").
Proof.
  split.
  - apply accepts_iff. reflexivity.
  - intros [H|[H|H]].
    + discriminate H.
    + destruct H as [a [b [c [d [H _]]]]]. discriminate H.
    + change (split 44 (lit "150x50,")) with [lit "150x50"; []] in H.
      inversion H as [|? ? _ H2]; subst.
      inversion H2 as [|? ? Hempty _]; subst.
      apply WxH_not_nil in Hempty. now apply Hempty.
Qed.

Lemma tokenDenotes_head_digit tok p :
  tokenDenotes tok p -> exists c t, trim tok = c :: t /\ isDigit c = true.
Proof.
  intros [ws [hs [Hw [Hh [E _]]]]]. rewrite E.
  apply WxH_head_digit. now exists ws, hs.
Qed.

(** A line made of "WidthxHeight" tokens is neither empty nor a spelling
    of "null". *)
Lemma tokens_line s pairs :
  Forall2 tokenDenotes (split 44 s) pairs -> s <> [] /\ ~ nullLiteralCI s.
Proof.
  intros H. split.
  - intros ->. simpl in H. inversion H as [|tok p toks ps Hd _]; subst.
    apply tokenDenotes_head_digit in Hd as [c [t [E _]]]. discriminate E.
  - intros [a [b [c [d [-> [Ha [Hb [Hc Hd]]]]]]]].
    destruct Ha as [-> | ->], Hb as [-> | ->], Hc as [-> | ->], Hd as [-> | ->];
      simpl in H; inversion H as [|tok p toks ps Ht _]; subst;
      apply tokenDenotes_head_digit in Ht as [x [t [E Hx]]];
      vm_compute in E; injection E as <- _; discriminate Hx.
Qed.

Lemma parsePair_denoted toks pairs :
  Forall2 tokenDenotes toks pairs ->
  List.map parsePair toks = List.map pairValue pairs.
Proof.
  induction 1 as [|tok p toks ps [ws [hs [Hw [Hh [E [Ew Eh]]]]]] _ IH]; simpl.
  - reflexivity.
  - f_equal; [|exact IH].
    rewrite (parsePair_WxH tok ws hs Hw Hh E).
    unfold pairValue. now rewrite Ew, Eh.
Qed.

Lemma parseSizes_denoted s pairs :
  Forall2 tokenDenotes (split 44 s) pairs ->
  parseSizes s = Some (List.map pairValue pairs).
Proof.
  intros H. destruct (tokens_line s pairs H) as [Hne Hnull].
  rewrite (parseSizes_other s Hne Hnull).
  f_equal. now apply parsePair_denoted.
Qed.






Lemma tokens_denote toks :
  Forall (fun tok => WxH (trim tok)) toks ->
  exists pairs, Forall2 tokenDenotes toks pairs.
Proof.
  induction 1 as [|tok toks [ws [hs [Hw [Hh E]]]] _ [pairs IH]].
  - exists []. constructor.
  - exists ((decimal ws, decimal hs) :: pairs). constructor; [|exact IH].
    exists ws, hs.
    split; [exact Hw | split; [exact Hh | split; [exact E | split; reflexivity]]].
Qed.

(** C6 at its failing input.  On a line whose trimmed tokens all match
    [^\d+x\d+$] every component is an integer, as the claim says; but the
    loop also accepts "150x50,", a line that is neither empty nor "null",
    and the pair [parseSizes] makes of its empty second token is
    [[NaN, NaN]]. *)
Theorem parseSizes_accepted_line_NaN :
  (forall line, Forall (fun tok => WxH (trim tok)) (split 44 line) ->
     exists pairs, parseSizes line = Some (List.map pairValue pairs))
  /\ accepts NotAutoInsert.diagnostic "Enter Desktop sizes: " (lit "150x50,")
  /\ lit "150x50," <> []
  /\ ~ nullLiteralCI (lit "150x50,")
  /\ parseSizes (lit "150x50,")
     = Some [pairValue (150, 50)%Z; VArr [VNum NaN; VNum NaN]].
Proof.
  split; [|split; [|split; [|split]]].
  - intros line H. destruct (tokens_denote _ H) as [pairs Hp].
    exists pairs. now apply parseSizes_denoted.
  - apply accepts_iff. reflexivity.
  - discriminate.
  - intros [a [b [c [d [H _]]]]]. discriminate H.
  - reflexivity.
Qed.

(** ** The assemblers *)

(** C3: [createSizeMap] of notAutoInsert.js lists the categories in the
    order desktop (992), tablet (768), mobile (0); a category has an entry
    exactly when it is null (the entry holds null) or a non-empty sequence
    (the entry holds the sequence), and an empty sequence leaves no entry.
    With desktop [[150,50]], tablet empty and mobile null the result is
    [{"sizeMap":[[[992],[[150,50]]],[[0],null]]}]. *)
Theorem createSizeMap_breakpoints :
  forall desktopSizes tabletSizes mobileSizes : sizes,
    NotAutoInsert.createSizeMap desktopSizes tabletSizes mobileSizes
    = VObj [("sizeMap"%string,
             VArr (List.map entry
                     (filter (fun tx => contributes (snd tx))
                        [(992%Z, desktopSizes); (768%Z, tabletSizes);
                         (0%Z, mobileSizes)])))]
    /\ NotAutoInsert.createSizeMap (Some [pairValue (150, 50)%Z]) (Some []) None
       = VObj [("sizeMap"%string,
                VArr [VArr [VArr [VNum (Int 992)];
                            VArr [VArr [VNum (Int 150); VNum (Int 50)]]];
                      VArr [VArr [VNum (Int 0)]; VNull]])].
Proof.
  intros [[|d ds]|] [[|t ts]|] [[|m ms]|]; split; reflexivity.
Qed.

(** The callback after the primary slot is taken: every kept category is
    appended to the extensions. *)
Lemma forEach_extensions inputs :
  forall labels pre result envExt,
    List.length inputs = List.length labels ->
    truthy (getProp "sizes" result) = true ->
    EnvExt.forEach (pre ++ labels) inputs (List.length pre) (result, envExt)
    = (result, envExt ++ List.map slot (filter kept (combine inputs labels))).
Proof.
  induction inputs as [|x inputs IH]; intros labels pre result envExt Hlen Hres.
  - simpl. now rewrite app_nil_r.
  - destruct labels as [|l labels]; [discriminate|].
    injection Hlen as Hlen.
    cbn [EnvExt.forEach EnvExt.visit combine filter].
    rewrite nth_error_app2, Nat.sub_diag by apply Nat.le_refl.
    cbn [nth_error]. unfold kept at 1. cbn [fst].
    replace (pre ++ l :: labels) with ((pre ++ [l]) ++ labels)
      by (rewrite <- app_assoc; reflexivity).
    replace (S (List.length pre)) with (List.length (pre ++ [l]))
      by (rewrite length_app; simpl; lia).
    destruct (nullOrEmpty x); cbn [negb].
    + now apply IH.
    + rewrite Hres. cbn [negb]. rewrite IH by assumption.
      cbn [List.map]. now rewrite <- app_assoc.
Qed.

(** The callback from the start: the first kept category takes the primary
    slot, the later ones are the extensions. *)
Lemma forEach_primary inputs :
  forall labels pre,
    List.length inputs = List.length labels ->
    EnvExt.forEach (pre ++ labels) inputs (List.length pre) ([], [])
    = match filter kept (combine inputs labels) with
      | [] => ([], [])
      | first :: more =>
          ([("sizes"%string, ofSizes (fst first));
            ("envs"%string, VStr (snd first))],
           List.map slot more)
      end.
Proof.
  induction inputs as [|x inputs IH]; intros labels pre Hlen.
  - reflexivity.
  - destruct labels as [|l labels]; [discriminate|].
    injection Hlen as Hlen.
    cbn [EnvExt.forEach EnvExt.visit combine filter].
    rewrite nth_error_app2, Nat.sub_diag by apply Nat.le_refl.
    cbn [nth_error]. unfold kept at 1. cbn [fst].
    replace (pre ++ l :: labels) with ((pre ++ [l]) ++ labels)
      by (rewrite <- app_assoc; reflexivity).
    replace (S (List.length pre)) with (List.length (pre ++ [l]))
      by (rewrite length_app; simpl; lia).
    destruct x as [[|v vs]|]; cbn [nullOrEmpty negb].
    + now apply IH.
    + cbn. rewrite forEach_extensions by (assumption || reflexivity).
      reflexivity.
    + now apply IH.
Qed.

(** [generateSizeMap] for any number of categories with their labels. *)
Lemma generateSizeMap_categories inputs labels :
  List.length inputs = List.length labels ->
  EnvExt.generateSizeMap inputs labels
  = firstPlusExtensions (filter kept (combine inputs labels)).
Proof.
  intros Hlen. unfold EnvExt.generateSizeMap.
  pose proof (forEach_primary inputs labels [] Hlen) as E.
  cbn [app List.length] in E. rewrite E.
  destruct (filter kept (combine inputs labels)) as [|first more].
  - reflexivity.
  - destruct more as [|second more]; reflexivity.
Qed.

(** C4: [generateSizeMap] of the first-plus-extensions script visits
    desktop, tablet and mobile in this order, leaves out every category
    that is null or an empty sequence, gives the first remaining one, with
    its label "d", "t" or "m", the [sizes] and [envs] properties, lists the
    later ones in order under [envExt], and returns [{}] when none
    remains.  With desktop "150x50", tablet "" and mobile "null" the result
    is [{"sizes":[[150,50]],"envs":"d"}]. *)
Theorem generateSizeMap_first_plus_extensions :
  forall desktopSizes tabletSizes mobileSizes : sizes,
    EnvExt.generateSizeMap [desktopSizes; tabletSizes; mobileSizes] EnvExt.devices
    = firstPlusExtensions
        (filter kept
           [(desktopSizes, lit "d"); (tabletSizes, lit "t"); (mobileSizes, lit "m")])
    /\ (filter kept
          [(desktopSizes, lit "d"); (tabletSizes, lit "t"); (mobileSizes, lit "m")]
        = [] ->
        EnvExt.generateSizeMap [desktopSizes; tabletSizes; mobileSizes] EnvExt.devices
        = VObj [])
    /\ EnvExt.generateSizeMap
         [parseSizes (lit "150x50"); parseSizes (lit ""); parseSizes (lit "null")]
         EnvExt.devices
       = VObj [("sizes"%string, VArr [pairValue (150, 50)%Z]);
               ("envs"%string, VStr (lit "d"))].
Proof.
  intros d t m.
  assert (E : EnvExt.generateSizeMap [d; t; m] EnvExt.devices
              = firstPlusExtensions
                  (filter kept [(d, lit "d"); (t, lit "t"); (m, lit "m")])).
  { now rewrite generateSizeMap_categories. }
  split; [exact E | split; [|reflexivity]].
  intros H. rewrite E, H. reflexivity.
Qed.

(** C9: [createSizeMap] of sizeMapRef.js always returns three entries, for
    the thresholds 992, 768 and 0 in this order; each entry carries the
    category as it is, null for null and the sequence otherwise, so an
    empty sequence appears as an entry with an empty array. *)
Theorem createSizeMap_ref_three_entries :
  forall desktopSizes tabletSizes mobileSizes : sizes,
    SizeMapRef.createSizeMap desktopSizes tabletSizes mobileSizes
    = VObj [("sizeMap"%string,
             VArr [entry (992%Z, desktopSizes); entry (768%Z, tabletSizes);
                   entry (0%Z, mobileSizes)])]
    /\ entry (768%Z, Some []) = VArr [VArr [VNum (Int 768)]; VArr []].
Proof.
  intros [d|] [t|] [m|]; split; reflexivity.
Qed.

(** C10: when each of the three categories is null or a non-empty list,
    [createSizeMap] of notAutoInsert.js and [createSizeMap] of
    sizeMapRef.js return the same object. *)
Theorem createSizeMap_variants_agree :
  forall desktopSizes tabletSizes mobileSizes : sizes,
    nullOrNonEmpty desktopSizes ->
    nullOrNonEmpty tabletSizes ->
    nullOrNonEmpty mobileSizes ->
    NotAutoInsert.createSizeMap desktopSizes tabletSizes mobileSizes
    = SizeMapRef.createSizeMap desktopSizes tabletSizes mobileSizes.
Proof.
  intros d t m [->|[v1 [l1 ->]]] [->|[v2 [l2 ->]]] [->|[v3 [l3 ->]]];
    reflexivity.
Qed.

Lemma createSizeMap_variants_agree_witness :
  NotAutoInsert.createSizeMap (Some [pairValue (150, 50)%Z]) None
    (Some [pairValue (300, 100)%Z; pairValue (1, 2)%Z])
  = SizeMapRef.createSizeMap (Some [pairValue (150, 50)%Z]) None
      (Some [pairValue (300, 100)%Z; pairValue (1, 2)%Z]).
Proof.
  apply createSizeMap_variants_agree.
  - right. now exists (pairValue (150, 50)%Z), [].
  - now left.
  - right. now exists (pairValue (300, 100)%Z), [pairValue (1, 2)%Z].
Defined.

(** ** Whole runs of the prompt scripts *)

(** The common opening of the three scripts: the instruction, the three
    validated questions and [rl.close()].  What follows runs on the first
    three lines that the loop lets through, after a transcript of prompts
    and diagnostics only. *)
Lemma three_reads instruction diagnostic
    (k : jsstring -> jsstring -> jsstring -> M unit) w d t m more :
  acceptedLines (stdin w) = d :: t :: m :: more ->
  exists rest tr,
    Forall isText tr /\ acceptedLines rest = more
    /\ (consoleLog instruction ;;;
        desktopInput <- Shared.getValidInput diagnostic "Enter Desktop sizes: " ;;
        tabletInput <- Shared.getValidInput diagnostic "Enter Tablet sizes: " ;;
        mobileInput <- Shared.getValidInput diagnostic "Enter Mobile sizes: " ;;
        rlClose ;;;
        k desktopInput tabletInput mobileInput)%io w
       = k d t m (mkWorld rest (stdout w ++ tr ++ [RlClose])).
Proof.
  destruct w as [lines out]. cbn [stdin stdout]. intros H.
  destruct (getValidInputFrom_accepted diagnostic "Enter Desktop sizes: " lines
              (out ++ [Log instruction]) d (t :: m :: more) H)
    as [rest1 [tr1 [E1 [H1 T1]]]].
  destruct (getValidInputFrom_accepted diagnostic "Enter Tablet sizes: " rest1
              ((out ++ [Log instruction]) ++ tr1) t (m :: more) H1)
    as [rest2 [tr2 [E2 [H2 T2]]]].
  destruct (getValidInputFrom_accepted diagnostic "Enter Mobile sizes: " rest2
              (((out ++ [Log instruction]) ++ tr1) ++ tr2) m more H2)
    as [rest3 [tr3 [E3 [H3 T3]]]].
  exists rest3, ([Log instruction] ++ tr1 ++ tr2 ++ tr3).
  split; [|split].
  - apply Forall_app. split; [repeat constructor|].
    apply Forall_app. split; [assumption|].
    apply Forall_app. now split.
  - exact H3.
  - unfold bind, consoleLog, rlClose, emit, Shared.getValidInput.
    cbn [stdin stdout]. rewrite E1. cbn [stdin stdout]. rewrite E2.
    cbn [stdin stdout]. rewrite E3. cbn [stdin stdout].
    f_equal. f_equal. rewrite <- !app_assoc. reflexivity.
Qed.

Lemma isText_not_json e : isText e -> ~ isJson e.
Proof. destruct e; simpl; tauto. Qed.

(** The result of a read is [null] or empty only for the two lines that
    say so. *)
Lemma nullOrEmpty_parseSizes line :
  nullOrEmpty (parseSizes line) = true <-> line = [] \/ nullLiteralCI line.
Proof.
  unfold parseSizes.
  destruct (str_eqb (toLowerCase line) (lit "null")) eqn:E.
  - apply toLowerCase_null in E. simpl. tauto.
  - assert (Hn : ~ nullLiteralCI line).
    { intros H. apply toLowerCase_null in H. congruence. }
    destruct line as [|c line].
    + simpl. tauto.
    + cbv iota. pose proof (split_not_nil 44 (c :: line)) as Hs.
      destruct (split 44 (c :: line)) as [|tok toks]; [congruence|].
      simpl. split; [discriminate|].
      intros [H|H]; [discriminate | contradiction].
Qed.

(** C5: when each of the three parsed results is null or the empty
    sequence, a run of notAutoInsert.js ends normally with the line
    "No size config needed" and its transcript holds no JSON output. *)
Theorem generateSizeMap_no_config :
  forall w d t m more,
    acceptedLines (stdin w) = d :: t :: m :: more ->
    nullOrEmpty (parseSizes d) = true ->
    nullOrEmpty (parseSizes t) = true ->
    nullOrEmpty (parseSizes m) = true ->
    exists rest tr,
      NotAutoInsert.generateSizeMap w
      = Done tt (mkWorld rest (stdout w ++ tr ++ [Log "No size config needed"]))
      /\ Forall (fun e => ~ isJson e) (tr ++ [Log "No size config needed"]).
Proof.
  intros w d t m more H Hd Ht Hm.
  destruct (three_reads NotAutoInsert.instruction NotAutoInsert.diagnostic
              (fun desktopInput tabletInput mobileInput =>
                 let desktopSizes := parseSizes desktopInput in
                 let tabletSizes := parseSizes tabletInput in
                 let mobileSizes := parseSizes mobileInput in
                 if nullOrEmpty desktopSizes && nullOrEmpty tabletSizes
                    && nullOrEmpty mobileSizes
                 then consoleLog "No size config needed"
                 else emit (LogJson (NotAutoInsert.createSizeMap desktopSizes
                                       tabletSizes mobileSizes)))
              w d t m more H) as [rest [tr [Htr [_ E]]]].
  exists rest, (tr ++ [RlClose]). split.
  - refine (eq_trans E _). cbv zeta. rewrite Hd, Ht, Hm. cbn [andb].
    unfold consoleLog, emit. cbn [stdin stdout].
    now rewrite <- !app_assoc.
  - rewrite !Forall_app. repeat split.
    + eapply Forall_impl; [|exact Htr]. apply isText_not_json.
    + repeat constructor. simpl. tauto.
    + repeat constructor. simpl. tauto.
Qed.

Lemma generateSizeMap_no_config_witness :
  exists rest tr,
    NotAutoInsert.generateSizeMap
      (mkWorld [lit "150"; lit ""; lit "NULL"; lit "null"; lit "7x7"] [])
    = Done tt (mkWorld rest ([] ++ tr ++ [Log "No size config needed"]))
    /\ Forall (fun e => ~ isJson e) (tr ++ [Log "No size config needed"]).
Proof.
  apply (generateSizeMap_no_config
           (mkWorld [lit "150"; lit ""; lit "NULL"; lit "null"; lit "7x7"] [])
           (lit "") (lit "NULL") (lit "null") [lit "7x7"]);
    reflexivity.
Defined.

Lemma finalEvent_emit e w : finalEvent (emit e w) = Some e.
Proof.
  unfold finalEvent, emit. cbn [stdout]. now rewrite last_last.
Qed.

Lemma notAutoInsert_result w d t m more :
  acceptedLines (stdin w) = d :: t :: m :: more ->
  finalEvent (NotAutoInsert.generateSizeMap w) = Some (resultNotAutoInsert d t m).
Proof.
  intros H.
  destruct (three_reads NotAutoInsert.instruction NotAutoInsert.diagnostic
              (fun d t m => emit (resultNotAutoInsert d t m)) w d t m more H)
    as [rest [tr [_ [_ E]]]].
  transitivity (finalEvent (emit (resultNotAutoInsert d t m)
                              (mkWorld rest (stdout w ++ tr ++ [RlClose])))).
  - f_equal. rewrite <- E.
    unfold NotAutoInsert.generateSizeMap, NotAutoInsert.getValidInput, bind.
    repeat match goal with
    | |- match ?o with _ => _ end = match ?o with _ => _ end =>
        destruct o; [|reflexivity]
    end.
    unfold resultNotAutoInsert, consoleLog. cbv zeta.
    match goal with |- context [if ?b then _ else _] => destruct b end;
      reflexivity.
  - apply finalEvent_emit.
Qed.

Lemma sizeMapRef_result w d t m more :
  acceptedLines (stdin w) = d :: t :: m :: more ->
  finalEvent (SizeMapRef.generateSizeMap w) = Some (resultSizeMapRef d t m).
Proof.
  intros H.
  destruct (three_reads NotAutoInsert.instruction NotAutoInsert.diagnostic
              (fun d t m => emit (resultSizeMapRef d t m)) w d t m more H)
    as [rest [tr [_ [_ E]]]].
  transitivity (finalEvent (emit (resultSizeMapRef d t m)
                              (mkWorld rest (stdout w ++ tr ++ [RlClose])))).
  - f_equal. exact E.
  - apply finalEvent_emit.
Qed.

Lemma envExt_result w d t m more :
  acceptedLines (stdin w) = d :: t :: m :: more ->
  finalEvent (EnvExt.processInputs w) = Some (resultEnvExt d t m).
Proof.
  intros H.
  destruct (three_reads EnvExt.instruction EnvExt.diagnostic
              (fun d t m => emit (resultEnvExt d t m)) w d t m more H)
    as [rest [tr [_ [_ E]]]].
  transitivity (finalEvent (emit (resultEnvExt d t m)
                              (mkWorld rest (stdout w ++ tr ++ [RlClose])))).
  - f_equal. exact E.
  - apply finalEvent_emit.
Qed.

(** X17: a finished run of each prompt script ends by printing what its
    assembler makes of the parse of the first three lines the loop let
    through (notAutoInsert.js: the "No size config needed" line when all
    three are null or empty).  So two runs that accept the same three
    lines, whatever was refused in between, whatever lines follow and
    whatever was written before, end with the same output. *)
Theorem size_map_determined_by_accepted_lines :
  forall w1 w2 d t m more1 more2,
    acceptedLines (stdin w1) = d :: t :: m :: more1 ->
    acceptedLines (stdin w2) = d :: t :: m :: more2 ->
    (finalEvent (NotAutoInsert.generateSizeMap w1)
     = finalEvent (NotAutoInsert.generateSizeMap w2)
     /\ finalEvent (NotAutoInsert.generateSizeMap w1)
        = Some (resultNotAutoInsert d t m))
    /\ (finalEvent (SizeMapRef.generateSizeMap w1)
        = finalEvent (SizeMapRef.generateSizeMap w2)
        /\ finalEvent (SizeMapRef.generateSizeMap w1)
           = Some (resultSizeMapRef d t m))
    /\ (finalEvent (EnvExt.processInputs w1) = finalEvent (EnvExt.processInputs w2)
        /\ finalEvent (EnvExt.processInputs w1) = Some (resultEnvExt d t m)).
Proof.
  intros w1 w2 d t m more1 more2 H1 H2.
  rewrite (notAutoInsert_result w1 d t m more1 H1),
    (notAutoInsert_result w2 d t m more2 H2),
    (sizeMapRef_result w1 d t m more1 H1),
    (sizeMapRef_result w2 d t m more2 H2),
    (envExt_result w1 d t m more1 H1),
    (envExt_result w2 d t m more2 H2).
  repeat split.
Qed.

Lemma size_map_determined_by_accepted_lines_witness :
  finalEvent (NotAutoInsert.generateSizeMap
                (mkWorld [lit "150x50"; lit "x"; lit ""; lit "null"] []))
  = finalEvent (NotAutoInsert.generateSizeMap
                  (mkWorld [lit "1x"; lit "150x50"; lit ""; lit "null"; lit "2x2"]
                     [Log "earlier"])).
Proof.
  apply (size_map_determined_by_accepted_lines
           (mkWorld [lit "150x50"; lit "x"; lit ""; lit "null"] [])
           (mkWorld [lit "1x"; lit "150x50"; lit ""; lit "null"; lit "2x2"]
              [Log "earlier"])
           (lit "150x50") (lit "") (lit "null") [] [lit "2x2"]);
    reflexivity.
Defined.

(** ** The launcher *)

Lemma choice_A t :
  str_eqb (toUpperCase t) (lit "A") = true <-> t = lit "a" \/ t = lit "A".
Proof.
  rewrite str_eqb_eq. split.
  - intros H. apply (toUpperCase_single t 65) in H; [|now left].
    destruct H as [-> | ->]; [now right | now left].
  - intros [-> | ->]; reflexivity.
Qed.

Lemma choice_E t :
  str_eqb (toUpperCase t) (lit "E") = true <-> t = lit "e" \/ t = lit "E".
Proof.
  rewrite str_eqb_eq. split.
  - intros H. apply (toUpperCase_single t 69) in H; [|now right].
    destruct H as [-> | ->]; [now right | now left].
  - intros [-> | ->]; reflexivity.
Qed.

(** One round of the menu, by the launcher's reading of the line. *)
Lemma startScript_round child input rest :
  Launcher.startScript child (input :: rest)
  = [Log Launcher.menu; Prompt "> "]
    ++ match choiceOf input with
       | Some script =>
           Log ("Starting " ++ script ++ "...")
           :: Launcher.executeScript child script
       | None => Log Launcher.invalidChoice :: Launcher.startScript child rest
       end.
Proof.
  cbn [Launcher.startScript]. f_equal. unfold choiceOf.
  pose proof (choice_A (trim input)) as HA.
  pose proof (choice_E (trim input)) as HE.
  rewrite <- !str_eqb_eq, <- orb_true_iff in HA, HE.
  destruct (str_eqb (toUpperCase (trim input)) (lit "A")).
  - rewrite (proj1 HA eq_refl). reflexivity.
  - destruct (str_eqb (trim input) (lit "a") || str_eqb (trim input) (lit "A")).
    + destruct HA as [_ HA]. discriminate (HA eq_refl).
    + destruct (str_eqb (toUpperCase (trim input)) (lit "E")).
      * rewrite (proj1 HE eq_refl). reflexivity.
      * destruct (str_eqb (trim input) (lit "e") || str_eqb (trim input) (lit "E")).
        -- destruct HE as [_ HE]. discriminate (HE eq_refl).
        -- reflexivity.
Qed.

Lemma startScript_refused child bad :
  Forall (fun line => choiceOf line = None) bad ->
  forall lines,
    Launcher.startScript child (bad ++ lines)
    = flat_map (fun _ => refusedRound) bad ++ Launcher.startScript child lines.
Proof.
  induction 1 as [|line bad Hline _ IH]; intros lines.
  - reflexivity.
  - cbn [app flat_map]. rewrite startScript_round, Hline, IH. reflexivity.
Qed.

Lemma exitCode_executeScript pre child script :
  Launcher.exitCode (pre ++ Launcher.executeScript child script)
  = Some match child script with
         | Launcher.ChildError _ => 1%Z
         | Launcher.ChildClose (Some code) => code
         | Launcher.ChildClose None => 0%Z
         end.
Proof.
  unfold Launcher.exitCode, Launcher.executeScript.
  destruct (child script) as [message|[code|]]; cbn [Launcher.processExit];
    match goal with
    | |- context [[?a; ?b] ++ [?c; ?d]] =>
        change ([a; b] ++ [c; d]) with ([a; b; c] ++ [d])
    end;
    rewrite app_assoc, last_last; reflexivity.
Qed.

(** C7: the launcher takes a line as a choice exactly when, trimmed, it is
    "A" or "E" in either case.  After any number of other lines, each
    answered by the menu again, a choice makes it close its readline
    interface, spawn [node] on the chosen script with the three standard
    streams inherited, and exit with the child's exit code when the child
    closes, or with 1 when the child could not be started; as long as no
    choice arrives it keeps asking and does not exit. *)
Theorem launcher_runs_choice :
  forall (child : string -> Launcher.childEvent) (bad : list jsstring),
    Forall (fun line => choiceOf line = None) bad ->
    (Launcher.startScript child bad
     = flat_map (fun _ => refusedRound) bad ++ [Log Launcher.menu; Prompt "> "]
     /\ Launcher.exitCode (Launcher.startScript child bad) = None)
    /\ (forall input rest script,
          choiceOf input = Some script ->
          (exists report,
             Launcher.startScript child (bad ++ input :: rest)
             = flat_map (fun _ => refusedRound) bad
               ++ [Log Launcher.menu; Prompt "> ";
                   Log ("Starting " ++ script ++ "...");
                   RlClose;
                   Spawn "node" [script] [Inherit; Inherit; Inherit]]
               ++ [report;
                   Exit match child script with
                        | Launcher.ChildError _ => 1%Z
                        | Launcher.ChildClose (Some code) => code
                        | Launcher.ChildClose None => 0%Z
                        end])
          /\ Launcher.exitCode (Launcher.startScript child (bad ++ input :: rest))
             = Some match child script with
                    | Launcher.ChildError _ => 1%Z
                    | Launcher.ChildClose (Some code) => code
                    | Launcher.ChildClose None => 0%Z
                    end).
Proof.
  intros child bad Hbad. split.
  - pose proof (startScript_refused child bad Hbad []) as E.
    rewrite app_nil_r in E. rewrite E. split; [reflexivity|].
    unfold Launcher.exitCode. cbn [Launcher.startScript].
    change ([Log Launcher.menu; Prompt "> "] ++ [])
      with ([Log Launcher.menu] ++ [Prompt "> "]).
    now rewrite !app_assoc, last_last.
  - intros input rest script Hchoice.
    rewrite (startScript_refused child bad Hbad), startScript_round, Hchoice.
    split.
    + unfold Launcher.executeScript.
      destruct (child script) as [message|[code|]]; eexists; reflexivity.
    + change ([Log Launcher.menu; Prompt "> "]
              ++ Log ("Starting " ++ script ++ "...")
                 :: Launcher.executeScript child script)
        with ([Log Launcher.menu; Prompt "> ";
               Log ("Starting " ++ script ++ "...")]
              ++ Launcher.executeScript child script).
      rewrite app_assoc. apply exitCode_executeScript.
Qed.

Lemma launcher_runs_choice_witness :
  Launcher.exitCode
    (Launcher.startScript (fun _ => Launcher.ChildClose (Some 3%Z))
       ([lit "x"; lit ""] ++ lit " e " :: [lit "150x50"]))
  = Some 3%Z.
Proof.
  destruct (launcher_runs_choice (fun _ => Launcher.ChildClose (Some 3%Z))
              [lit "x"; lit ""]) as [_ H].
  - repeat constructor.
  - apply (H (lit " e ") [lit "150x50"] "notAutoInsert.js"%string). reflexivity.
Defined.

(** * Further properties of the code *)

(** ** Strings, once more *)

Lemma split_length sep s :
  List.length (split sep s) = S (count_occ N.eq_dec s sep).
Proof.
  induction s as [|c s IH]; [reflexivity|].
  cbn [split]. unfold unit_eqb. destruct (N.eqb_spec c sep) as [->|Hne].
  - rewrite count_occ_cons_eq by reflexivity. simpl. now rewrite IH.
  - rewrite count_occ_cons_neq by assumption.
    destruct (split sep s) as [|h t]; [discriminate IH | exact IH].
Qed.

Lemma split_app sep a b :
  split sep (a ++ sep :: b) = split sep a ++ split sep b.
Proof.
  induction a as [|c a IH]; cbn [app split].
  - unfold unit_eqb. now rewrite N.eqb_refl.
  - rewrite IH. destruct (unit_eqb c sep); [reflexivity|].
    pose proof (split_not_nil sep a) as Hne.
    destruct (split sep a); [congruence | reflexivity].
Qed.

Lemma trim_no_space s :
  Forall (fun c => isWhiteSpace c = false) s -> trim s = s.
Proof.
  intros H. unfold trim, trimStart, trimEnd.
  assert (D : forall t, Forall (fun c => isWhiteSpace c = false) t ->
                        dropWhile isWhiteSpace t = t).
  { intros t Ht. destruct Ht as [|c t Hc _]; simpl; [reflexivity | now rewrite Hc]. }
  rewrite (D s H), D by now apply Forall_rev.
  apply rev_involutive.
Qed.

Lemma nullLiteralCI_no_comma s : nullLiteralCI s -> ~ In 44%N s.
Proof.
  intros [a [b [c [d [-> [Ha [Hb [Hc Hd]]]]]]]] Hin. simpl in Hin. lia.
Qed.

Lemma join_not_null a b : ~ nullLiteralCI (a ++ 44%N :: b).
Proof.
  intros H. apply (nullLiteralCI_no_comma _ H).
  apply in_or_app. right. now left.
Qed.

Lemma digits_no_space w :
  Forall (fun c => isDigit c = true) w ->
  Forall (fun c => isWhiteSpace c = false) w.
Proof.
  intros H. eapply Forall_impl; [|exact H]. apply digit_not_space.
Qed.

Lemma WxH_no_space t : WxH t -> Forall (fun c => isWhiteSpace c = false) t.
Proof.
  intros [w [h [[_ Hw] [[_ Hh] ->]]]]. apply Forall_app. split.
  - now apply digits_no_space.
  - constructor; [reflexivity | now apply digits_no_space].
Qed.

(** X1: [isValidFormat] holds of exactly three kinds of string: the empty
    string, the exact lower-case "null", and a non-empty run of digits, an
    "x" and a non-empty run of digits.  A string it passes therefore holds
    no white space and is left as it is by [trim]. *)
Theorem isValidFormat_language :
  forall input : jsstring,
    (isValidFormat input = true
     <-> input = [] \/ input = lit "null" \/ WxH input)
    /\ (isValidFormat input = true ->
        Forall (fun c => isWhiteSpace c = false) input /\ trim input = input).
Proof.
  intros input. split; [apply isValidFormat_spec|].
  intros H. apply isValidFormat_spec in H.
  assert (F : Forall (fun c => isWhiteSpace c = false) input).
  { destruct H as [->|[->|H]].
    - constructor.
    - repeat constructor.
    - now apply WxH_no_space. }
  split; [exact F | now apply trim_no_space].
Qed.

Lemma isValidFormat_language_witness :
  Forall (fun c => isWhiteSpace c = false) (lit "300x250")
  /\ trim (lit "300x250") = lit "300x250".
Proof.
  apply (isValidFormat_language (lit "300x250")). reflexivity.
Defined.

(** ** The validation loop, round by round *)

(** X2: after any number of refused lines the loop returns the first line
    that passes, leaves the lines after it unread, and has written one
    prompt and one diagnostic per refused line and one last prompt. *)
Theorem getValidInput_first_accepted :
  forall diagnostic promptMessage bad good rest out,
    Forall (fun line => loopCondition line = true) bad ->
    loopCondition good = false ->
    getValidInputFrom diagnostic promptMessage (bad ++ good :: rest) out
    = Done good
        (mkWorld rest
           (out ++ refusedLines diagnostic promptMessage bad
            ++ [Prompt promptMessage])).
Proof.
  intros diagnostic promptMessage bad good rest out Hbad Hgood. revert out.
  induction Hbad as [|line bad Hline _ IH]; intros out;
    cbn [app getValidInputFrom refusedLines flat_map].
  - now rewrite Hgood.
  - rewrite Hline, IH. unfold refusedLines.
    now rewrite <- !app_assoc.
Qed.

Lemma getValidInput_first_accepted_witness :
  getValidInputFrom NotAutoInsert.diagnostic "Enter Tablet sizes: "
    ([lit "150 x 50"; lit "wide"] ++ lit "728x90, 300x250" :: [lit "null"]) []
  = Done (lit "728x90, 300x250")
      (mkWorld [lit "null"]
         ([] ++ refusedLines NotAutoInsert.diagnostic "Enter Tablet sizes: "
                  [lit "150 x 50"; lit "wide"]
          ++ [Prompt "Enter Tablet sizes: "])).
Proof.
  apply getValidInput_first_accepted.
  - repeat constructor.
  - reflexivity.
Defined.

(** X3: whatever line the loop returns passes the validator, every line
    read before it was refused, and the lines after it are still unread. *)
Theorem getValidInput_returns_first :
  forall diagnostic promptMessage lines out line w,
    getValidInputFrom diagnostic promptMessage lines out = Done line w ->
    loopCondition line = false
    /\ exists bad,
         Forall (fun l => loopCondition l = true) bad
         /\ lines = bad ++ line :: stdin w
         /\ stdout w
            = out ++ refusedLines diagnostic promptMessage bad
              ++ [Prompt promptMessage].
Proof.
  intros diagnostic promptMessage lines.
  induction lines as [|input lines IH]; intros out line w;
    cbn [getValidInputFrom].
  - discriminate.
  - destruct (loopCondition input) eqn:Hc.
    + intros H. destruct (IH _ _ _ H) as [Hline [bad [Hbad [E Eout]]]].
      split; [exact Hline|]. exists (input :: bad). split; [|split].
      * now constructor.
      * simpl. now rewrite E.
      * rewrite Eout. cbn [refusedLines flat_map]. now rewrite <- !app_assoc.
    + intros H. injection H as <- <-. split; [exact Hc|].
      exists []. repeat split. constructor.
Qed.

Lemma getValidInput_returns_first_witness :
  loopCondition (lit "NuLL") = false
  /\ exists bad,
       Forall (fun l => loopCondition l = true) bad
       /\ [lit "1x"; lit "NuLL"; lit "2x2"]
          = bad ++ lit "NuLL" :: stdin (mkWorld [lit "2x2"]
                                         [Prompt "p"; Log "d"; Prompt "p"])
       /\ stdout (mkWorld [lit "2x2"] [Prompt "p"; Log "d"; Prompt "p"])
          = [] ++ refusedLines "d" "p" bad ++ [Prompt "p"].
Proof.
  apply (getValidInput_returns_first "d" "p" [lit "1x"; lit "NuLL"; lit "2x2"] []).
  reflexivity.
Defined.

(** X4: when every line of the input is refused the loop never returns: it
    has read all the lines, answered each with the diagnostic, and waits
    at one more prompt. *)
Theorem getValidInput_starves :
  forall diagnostic promptMessage bad out,
    Forall (fun line => loopCondition line = true) bad ->
    getValidInputFrom diagnostic promptMessage bad out
    = Pending
        (mkWorld []
           (out ++ refusedLines diagnostic promptMessage bad
            ++ [Prompt promptMessage])).
Proof.
  intros diagnostic promptMessage bad out Hbad. revert out.
  induction Hbad as [|line bad Hline _ IH]; intros out;
    cbn [getValidInputFrom refusedLines flat_map].
  - reflexivity.
  - rewrite Hline, IH. unfold refusedLines. now rewrite <- !app_assoc.
Qed.

Lemma getValidInput_starves_witness :
  getValidInputFrom "d" "p" [lit "150x"; lit "NULL,1x1"; lit "1 x 1"] []
  = Pending
      (mkWorld []
         ([] ++ refusedLines "d" "p" [lit "150x"; lit "NULL,1x1"; lit "1 x 1"]
          ++ [Prompt "p"])).
Proof.
  apply getValidInput_starves. repeat constructor.
Defined.

(** ** The parser on arbitrary lines *)

Lemma parseSizes_Some line l :
  parseSizes line = Some l -> line <> [] ->
  ~ nullLiteralCI line /\ l = List.map parsePair (split 44 line).
Proof.
  intros H Hne.
  assert (Hn : ~ nullLiteralCI line).
  { intros Hn. rewrite (parseSizes_null line Hn) in H. discriminate. }
  split; [exact Hn|].
  rewrite (parseSizes_other line Hne Hn) in H. now injection H as <-.
Qed.

(** X5: [parseSizes] returns [null] only for a spelling of "null" and the
    empty array only for the empty line; on any other line it returns one
    pair per comma-separated token, that is one more than the line has
    commas. *)
Theorem parseSizes_shape :
  forall line : jsstring,
    (parseSizes line = None <-> nullLiteralCI line)
    /\ (parseSizes line = Some [] <-> line = [])
    /\ (forall l, parseSizes line = Some l -> line <> [] ->
          List.length l = S (count_occ N.eq_dec line 44%N)).
Proof.
  intros line. split; [|split].
  - split; [|apply parseSizes_null].
    unfold parseSizes.
    destruct (str_eqb (toLowerCase line) (lit "null")) eqn:E.
    + intros _. now apply toLowerCase_null.
    + destruct line; discriminate.
  - split.
    + intros H. destruct line as [|c line]; [reflexivity|].
      destruct (parseSizes_Some _ _ H) as [_ E]; [discriminate|].
      symmetry in E. apply map_eq_nil in E.
      now apply split_not_nil in E.
    + intros ->. reflexivity.
  - intros l H Hne. destruct (parseSizes_Some _ _ H Hne) as [_ ->].
    rewrite length_map. apply split_length.
Qed.

Lemma parseSizes_shape_witness :
  List.length (List.map parsePair (split 44 (lit "1x2,,3x4")))
  = S (count_occ N.eq_dec (lit "1x2,,3x4") 44%N).
Proof.
  apply (parseSizes_shape (lit "1x2,,3x4")).
  - reflexivity.
  - discriminate.
Defined.

Lemma decimal_acc_nonneg ds :
  Forall (fun c => isDigit c = true) ds ->
  forall acc, (0 <= acc)%Z ->
    (0 <= fold_left (fun a c => 10 * a + digitValue c) ds acc)%Z.
Proof.
  induction 1 as [|c ds Hc _ IH]; intros acc Hacc; cbn [fold_left];
    [exact Hacc|].
  apply IH. unfold digitValue. unfold isDigit in Hc.
  apply andb_true_iff in Hc as [Hlo _]. apply N.leb_le in Hlo. lia.
Qed.

Lemma tokenDenotes_nonneg tok p :
  tokenDenotes tok p -> (0 <= fst p)%Z /\ (0 <= snd p)%Z.
Proof.
  intros [ws [hs [[_ Hw] [[_ Hh] [_ [-> ->]]]]]].
  split; apply decimal_acc_nonneg; auto; lia.
Qed.

Lemma tokens_read toks :
  Forall (fun tok => exactWxH (trim tok)) toks ->
  exists pairs, Forall2 tokenReads toks pairs.
Proof.
  induction 1 as [|tok toks [ws [hs [Hw [Hh E]]]] _ [pairs IH]].
  - exists []. constructor.
  - exists ((decimal ws, decimal hs) :: pairs). constructor; [|exact IH].
    exists ws, hs.
    split; [exact Hw | split; [exact Hh | split; [exact E | split; reflexivity]]].
Qed.

Lemma tokenReads_denotes tok p : tokenReads tok p -> tokenDenotes tok p.
Proof.
  intros [ws [hs [[Hw _] [[Hh _] H]]]]. now exists ws, hs.
Qed.

Lemma tokenReads_bounds tok p :
  tokenReads tok p ->
  (0 <= fst p <= 2 ^ 53)%Z /\ (0 <= snd p <= 2 ^ 53)%Z.
Proof.
  intros H. destruct (tokenDenotes_nonneg tok p (tokenReads_denotes tok p H))
    as [H1 H2].
  destruct H as [ws [hs [[_ Bw] [[_ Bh] [_ [Ew Eh]]]]]].
  rewrite Ew, Eh in *. now repeat split.
Qed.

(** X6: on a line whose trimmed tokens all are a run of digits, an "x" and
    a run of digits, each run denoting at most 2^53, the parser returns
    one pair of integers per token, and no width or height is negative or
    above 2^53. *)
Theorem parseSizes_nonnegative :
  forall line : jsstring,
    Forall (fun tok => exactWxH (trim tok)) (split 44 line) ->
    exists pairs : list (Z * Z),
      parseSizes line = Some (List.map pairValue pairs)
      /\ List.length pairs = List.length (split 44 line)
      /\ Forall (fun p => (0 <= fst p <= 2 ^ 53)%Z /\ (0 <= snd p <= 2 ^ 53)%Z)
           pairs.
Proof.
  intros line H. destruct (tokens_read _ H) as [pairs Hp].
  exists pairs. split; [|split].
  - apply parseSizes_denoted.
    eapply Forall2_impl; [|exact Hp]. apply tokenReads_denotes.
  - symmetry. eapply Forall2_length. exact Hp.
  - clear H. induction Hp as [|tok p toks ps Hd _ IH]; constructor.
    + eapply tokenReads_bounds. exact Hd.
    + exact IH.
Qed.

Lemma parseSizes_nonnegative_witness :
  exists pairs : list (Z * Z),
    parseSizes (lit "970x250, 728x90") = Some (List.map pairValue pairs)
    /\ List.length pairs = List.length (split 44 (lit "970x250, 728x90"))
    /\ Forall (fun p => (0 <= fst p <= 2 ^ 53)%Z /\ (0 <= snd p <= 2 ^ 53)%Z)
         pairs.
Proof.
  apply parseSizes_nonnegative.
  change (split 44 (lit "970x250, 728x90")) with [lit "970x250"; lit " 728x90"].
  constructor; [|constructor; [|constructor]].
  - change (trim (lit "970x250")) with (lit "970x250").
    exists (lit "970"), (lit "250").
    repeat split; try discriminate; try (repeat constructor).
  - change (trim (lit " 728x90")) with (lit "728x90").
    exists (lit "728"), (lit "90").
    repeat split; try discriminate; try (repeat constructor).
Defined.

Lemma decimal_zeros n ds : decimal (repeat 48%N n ++ ds) = decimal ds.
Proof.
  unfold decimal. induction n as [|n IH]; [reflexivity|]. simpl. exact IH.
Qed.

Lemma digits_zeros n w : digits w -> digits (repeat 48%N n ++ w).
Proof.
  intros [Hne Hw]. split.
  - intros E. apply app_eq_nil in E as [_ E]. contradiction.
  - apply Forall_app. split; [|exact Hw].
    apply Forall_forall. intros c Hc. apply repeat_spec in Hc. now subst c.
Qed.

(** X7: the radix is always 10, so zeros in front of a width or a height
    do not change the parsed pair (no octal reading). *)
Theorem parsePair_leading_zeros :
  forall (n m : nat) (w h : jsstring),
    digits w -> digits h ->
    parsePair ((repeat 48%N n ++ w) ++ 120%N :: repeat 48%N m ++ h)
    = parsePair (w ++ 120%N :: h).
Proof.
  intros n m w h Hw Hh.
  assert (T : forall a b, digits a -> digits b ->
                trim (a ++ 120%N :: b) = a ++ 120%N :: b).
  { intros a b Ha Hb. apply trim_no_space, WxH_no_space. now exists a, b. }
  rewrite (parsePair_WxH _ (repeat 48%N n ++ w) (repeat 48%N m ++ h));
    [|now apply digits_zeros | now apply digits_zeros
     |apply T; now apply digits_zeros].
  rewrite (parsePair_WxH _ w h Hw Hh (T w h Hw Hh)).
  now rewrite !decimal_zeros.
Qed.

Lemma parsePair_leading_zeros_witness :
  parsePair ((repeat 48%N 2 ++ lit "10") ++ 120%N :: repeat 48%N 1 ++ lit "8")
  = parsePair (lit "10" ++ 120%N :: lit "8").
Proof.
  apply parsePair_leading_zeros; (split; [discriminate | repeat constructor]).
Defined.

Lemma parseInt10_spaces s post :
  Forall (fun c => isWhiteSpace c = true) s ->
  post = [] \/ (exists c t, post = c :: t /\ isWhiteSpace c = false
                            /\ isDigit c = false /\ unit_eqb c 45 = false
                            /\ unit_eqb c 43 = false) ->
  parseInt10 (Some (s ++ post)) = NaN.
Proof.
  intros Hs Hpost. unfold parseInt10, trimStart.
  rewrite dropWhile_app by assumption.
  destruct Hpost as [->|[c [t [-> [Hw [Hd [Hm Hp]]]]]]]; simpl.
  - reflexivity.
  - rewrite Hw, Hm, Hp. simpl. now rewrite Hd.
Qed.

(** A token the validator lets through although it is no "WidthxHeight"
    token parses to [[NaN, NaN]]. *)
Lemma parsePair_tolerated_NaN tok :
  trim tok = [] \/ trim tok = lit "null" -> parsePair tok = nanPair.
Proof.
  intros H.
  destruct (trim_split tok) as [pre [post [E [Hpre Hpost]]]].
  assert (Hx : Forall (fun c => unit_eqb c 120 = false) tok).
  { rewrite E. apply Forall_app. split; [now apply spaces_no_x|].
    apply Forall_app. split; [|now apply spaces_no_x].
    destruct H as [-> | ->]; repeat constructor. }
  unfold parsePair. rewrite (split_no_sep 120 tok Hx). cbn [nth_error].
  change (parseInt10 None) with NaN.
  unfold nanPair. do 3 f_equal.
  rewrite E. destruct H as [-> | ->].
  - cbn [app]. rewrite <- (app_nil_r (pre ++ post)).
    apply parseInt10_spaces; [|now left].
    apply Forall_app. now split.
  - apply parseInt10_spaces; [assumption|]. right.
    now exists 110%N, (lit "ull" ++ post).
Qed.

Lemma parsePair_noNaN_iff tok :
  tokenTolerated tok -> (noNaNPair (parsePair tok) <-> WxH (trim tok)).
Proof.
  intros [Ht|[Ht|Ht]].
  - rewrite (parsePair_tolerated_NaN tok (or_introl Ht)). split.
    + intros [a [b [E [Ha _]]]]. injection E as <- _. now contradiction Ha.
    + intros Hw. apply WxH_not_nil in Hw. contradiction.
  - rewrite (parsePair_tolerated_NaN tok (or_intror Ht)). split.
    + intros [a [b [E [Ha _]]]]. injection E as <- _. now contradiction Ha.
    + intros Hw. rewrite Ht in Hw.
      apply WxH_head_digit in Hw as [d [t' [E Hd]]].
      injection E as <- _. discriminate Hd.
  - split; [intros _; exact Ht|]. intros _.
    destruct Ht as [ws [hs [Hw [Hh E]]]].
    rewrite (parsePair_WxH tok ws hs Hw Hh E).
    exists (Int (decimal ws)), (Int (decimal hs)).
    repeat split; discriminate.
Qed.

Lemma parsePairs_noNaN_iff toks :
  Forall tokenTolerated toks ->
  (Forall noNaNPair (List.map parsePair toks)
   <-> Forall (fun tok => WxH (trim tok)) toks).
Proof.
  induction 1 as [|tok toks Ht _ IH]; simpl.
  - split; constructor.
  - split; intros HF; inversion HF as [|? ? Hp Hps]; subst; constructor.
    + now apply (parsePair_noNaN_iff tok Ht).
    + now apply IH.
    + now apply (parsePair_noNaN_iff tok Ht).
    + now apply IH.
Qed.

(** X8: of a line the loop accepts, the parsed array is free of [NaN]
    exactly when the line is empty or every trimmed token matches
    [^\d+x\d+$]; each empty token and each token "null" that the loop let
    through gives the pair [[NaN, NaN]]. *)
Theorem parseSizes_NaN_free_iff :
  forall (line : jsstring) (l : list value),
    loopCondition line = false ->
    parseSizes line = Some l ->
    (Forall noNaNPair l
     <-> line = [] \/ Forall (fun tok => WxH (trim tok)) (split 44 line))
    /\ (forall tok, In tok (split 44 line) -> line <> [] ->
          ~ WxH (trim tok) -> In nanPair l).
Proof.
  intros line l Hloop Hparse.
  destruct line as [|c line].
  { injection Hparse as <-. split.
    - split; [now left | constructor].
    - intros tok _ Hne. congruence. }
  assert (Hne : c :: line <> []) by discriminate.
  destruct (parseSizes_Some _ _ Hparse Hne) as [Hnull ->].
  apply loopCondition_false in Hloop as [H|[H|Htok]];
    [discriminate | contradiction |].
  split.
  - rewrite (parsePairs_noNaN_iff _ Htok). split.
    + now right.
    + intros [H|H]; [discriminate | exact H].
  - intros tok Hin _ Hnot.
    assert (Ht : tokenTolerated tok).
    { eapply Forall_forall in Htok; eassumption. }
    rewrite <- (parsePair_tolerated_NaN tok).
    + now apply in_map.
    + destruct Ht as [Ht|[Ht|Ht]]; [now left | now right | contradiction].
Qed.

Lemma parseSizes_NaN_free_iff_witness :
  (Forall noNaNPair [pairValue (150, 50)%Z; nanPair]
   <-> lit "150x50, null" = []
       \/ Forall (fun tok => WxH (trim tok)) (split 44 (lit "150x50, null")))
  /\ (forall tok, In tok (split 44 (lit "150x50, null")) ->
        lit "150x50, null" <> [] ->
        ~ WxH (trim tok) -> In nanPair [pairValue (150, 50)%Z; nanPair]).
Proof.
  apply (parseSizes_NaN_free_iff (lit "150x50, null")); reflexivity.
Defined.

(** X9: parsing distributes over joining two non-empty lines with a comma:
    if the parts parse to arrays, the joined line parses to their
    concatenation. *)
Theorem parseSizes_join :
  forall (a b : jsstring) (la lb : list value),
    a <> [] -> b <> [] ->
    parseSizes a = Some la -> parseSizes b = Some lb ->
    parseSizes (a ++ 44%N :: b) = Some (la ++ lb).
Proof.
  intros a b la lb Ha Hb Pa Pb.
  destruct (parseSizes_Some _ _ Pa Ha) as [_ ->].
  destruct (parseSizes_Some _ _ Pb Hb) as [_ ->].
  rewrite parseSizes_other.
  - now rewrite split_app, map_app.
  - intros E. now apply app_eq_nil in E as [_ E].
  - apply join_not_null.
Qed.

Lemma parseSizes_join_witness :
  parseSizes (lit "1x2,3x4" ++ 44%N :: lit "5x6")
  = Some ([pairValue (1, 2)%Z; pairValue (3, 4)%Z] ++ [pairValue (5, 6)%Z]).
Proof.
  apply parseSizes_join; (discriminate || reflexivity).
Defined.

(** X10: a line made by joining two parts with a comma is accepted by the
    loop exactly when every trimmed token of both parts is empty, the
    token "null" or a match of [^\d+x\d+$]; so an accepted part spelled
    "NULL" or "Null" is no longer accepted inside a list. *)
Theorem loopCondition_join :
  forall a b : jsstring,
    loopCondition (a ++ 44%N :: b) = false
    <-> Forall tokenTolerated (split 44 a) /\ Forall tokenTolerated (split 44 b).
Proof.
  intros a b. rewrite loopCondition_false. unfold tolerated.
  rewrite split_app, Forall_app. split.
  - intros [H|[H|H]]; [|now apply join_not_null in H | exact H].
    now apply app_eq_nil in H as [_ H].
  - intros H. now right; right.
Qed.

(** ** The assemblers on arbitrary categories *)

(** X11: as soon as one category is an empty sequence the two
    list-of-breakpoints assemblers disagree: notAutoInsert.js drops the
    entry that sizeMapRef.js keeps. *)
Theorem createSizeMap_variants_differ :
  forall desktopSizes tabletSizes mobileSizes : sizes,
    desktopSizes = Some [] \/ tabletSizes = Some [] \/ mobileSizes = Some [] ->
    NotAutoInsert.createSizeMap desktopSizes tabletSizes mobileSizes
    <> SizeMapRef.createSizeMap desktopSizes tabletSizes mobileSizes.
Proof.
  intros [[|d ds]|] [[|t ts]|] [[|m ms]|] H E;
    try discriminate E;
    destruct H as [H|[H|H]]; discriminate H.
Qed.

Lemma createSizeMap_variants_differ_witness :
  NotAutoInsert.createSizeMap (Some [pairValue (1, 2)%Z]) (Some []) None
  <> SizeMapRef.createSizeMap (Some [pairValue (1, 2)%Z]) (Some []) None.
Proof.
  apply createSizeMap_variants_differ. right. now left.
Defined.

Lemma forEach_extensions_at devices inputs :
  forall index result envExt,
    truthy (getProp "sizes" result) = true ->
    EnvExt.forEach devices inputs index (result, envExt)
    = (result,
       envExt ++ List.map slotAt (filter keptAt (categoriesAt inputs devices index))).
Proof.
  unfold categoriesAt.
  induction inputs as [|x inputs IH]; intros index result envExt Hres.
  - simpl. now rewrite app_nil_r.
  - cbn [EnvExt.forEach EnvExt.visit List.length seq List.map combine filter].
    unfold keptAt at 1. cbn [fst]. fold (labelAt devices index).
    destruct (nullOrEmpty x); cbn [negb].
    + now apply IH.
    + rewrite Hres. cbn [negb]. rewrite IH by assumption.
      cbn [List.map slotAt fst snd]. now rewrite <- app_assoc.
Qed.

Lemma forEach_primary_at devices inputs :
  forall index,
    EnvExt.forEach devices inputs index ([], [])
    = match filter keptAt (categoriesAt inputs devices index) with
      | [] => ([], [])
      | first :: more =>
          ([("sizes"%string, ofSizes (fst first)); ("envs"%string, snd first)],
           List.map slotAt more)
      end.
Proof.
  unfold categoriesAt.
  induction inputs as [|x inputs IH]; intros index.
  - reflexivity.
  - cbn [EnvExt.forEach EnvExt.visit List.length seq List.map combine filter].
    unfold keptAt at 1. cbn [fst]. fold (labelAt devices index).
    destruct x as [[|v vs]|]; cbn [nullOrEmpty negb].
    + now apply IH.
    + cbn. fold (labelAt devices index).
      rewrite forEach_extensions_at by reflexivity. reflexivity.
    + now apply IH.
Qed.

(** X12: [generateSizeMap(inputs, devices)] for arrays of any lengths: the
    categories that are non-empty sequences are kept in order, each with
    [devices[index]] as its label, which is [undefined] when [devices] is
    too short, and devices beyond the inputs play no part; the first kept
    category fills [sizes] and [envs], the others fill [envExt].  The
    property [envExt] is never an empty array: with fewer than two kept
    categories it is absent. *)
Theorem generateSizeMap_any_categories :
  forall (inputs : list sizes) (devices : list jsstring),
    EnvExt.generateSizeMap inputs devices
    = firstPlusExtensionsAt (filter keptAt (categoriesAt inputs devices 0))
    /\ (forall props,
          EnvExt.generateSizeMap inputs devices = VObj props ->
          getProp "envExt" props <> VArr []
          /\ (getProp "envExt" props = VUndefined
              <-> (List.length (filter keptAt (categoriesAt inputs devices 0)) <= 1)%nat)).
Proof.
  intros inputs devices.
  assert (E : EnvExt.generateSizeMap inputs devices
              = firstPlusExtensionsAt
                  (filter keptAt (categoriesAt inputs devices 0))).
  { unfold EnvExt.generateSizeMap. rewrite forEach_primary_at.
    destruct (filter keptAt (categoriesAt inputs devices 0)) as [|first more];
      [reflexivity|].
    destruct more; reflexivity. }
  split; [exact E|].
  intros props. rewrite E.
  destruct (filter keptAt (categoriesAt inputs devices 0)) as [|first [|second more]];
    cbn [firstPlusExtensionsAt app]; intros H; injection H as <-;
    cbn; (split; [discriminate|]); split;
    try reflexivity; try discriminate; try lia.
Qed.

Lemma generateSizeMap_any_categories_witness :
  getProp "envExt"
    [("sizes"%string, VArr [pairValue (1, 2)%Z]); ("envs"%string, VUndefined)]
  <> VArr []
  /\ (getProp "envExt"
        [("sizes"%string, VArr [pairValue (1, 2)%Z]); ("envs"%string, VUndefined)]
      = VUndefined
      <-> (List.length
             (filter keptAt
                (categoriesAt [None; Some [pairValue (1, 2)%Z]] [lit "d"] 0))
           <= 1)%nat).
Proof.
  apply (generateSizeMap_any_categories [None; Some [pairValue (1, 2)%Z]]
           [lit "d"]).
  reflexivity.
Defined.

(** ** Whole runs, once more *)

Lemma getValidInputFrom_starved diagnostic promptMessage lines :
  forall out,
    acceptedLines lines = [] ->
    exists tr,
      getValidInputFrom diagnostic promptMessage lines out
      = Pending (mkWorld [] (out ++ tr))
      /\ Forall isText tr.
Proof.
  induction lines as [|input lines IH]; intros out; simpl.
  - intros _. exists [Prompt promptMessage]. split; [reflexivity|].
    repeat constructor.
  - destruct (loopCondition input); simpl; [|discriminate].
    intros H. destruct (IH (out ++ [Prompt promptMessage; Log diagnostic]) H)
      as [tr [E Htr]].
    exists ([Prompt promptMessage; Log diagnostic] ++ tr). split.
    + rewrite E. now rewrite <- app_assoc.
    + repeat constructor. exact Htr.
Qed.

(** With fewer than three lines that pass, the common opening of the
    scripts stops at a question and what follows it never runs. *)
Lemma three_reads_pending instruction diagnostic
    (k : jsstring -> jsstring -> jsstring -> M unit) w :
  (List.length (acceptedLines (stdin w)) < 3)%nat ->
  exists tr,
    (consoleLog instruction ;;;
     desktopInput <- Shared.getValidInput diagnostic "Enter Desktop sizes: " ;;
     tabletInput <- Shared.getValidInput diagnostic "Enter Tablet sizes: " ;;
     mobileInput <- Shared.getValidInput diagnostic "Enter Mobile sizes: " ;;
     rlClose ;;;
     k desktopInput tabletInput mobileInput)%io w
    = Pending (mkWorld [] (stdout w ++ tr))
    /\ Forall isText tr.
Proof.
  destruct w as [lines out]. cbn [stdin stdout]. intros Hlen.
  unfold bind, consoleLog, rlClose, emit, Shared.getValidInput.
  cbn [stdin stdout].
  destruct (acceptedLines lines) as [|d more] eqn:E1.
  { destruct (getValidInputFrom_starved diagnostic "Enter Desktop sizes: " lines
                (out ++ [Log instruction]) E1) as [tr [E T]].
    exists ([Log instruction] ++ tr). rewrite E. split.
    - now rewrite <- app_assoc.
    - constructor; [exact I | exact T]. }
  destruct (getValidInputFrom_accepted diagnostic "Enter Desktop sizes: " lines
              (out ++ [Log instruction]) d more E1)
    as [rest1 [tr1 [F1 [H1 T1]]]].
  rewrite F1. cbn [stdin stdout].
  destruct more as [|t more].
  { destruct (getValidInputFrom_starved diagnostic "Enter Tablet sizes: " rest1
                ((out ++ [Log instruction]) ++ tr1) H1) as [tr [E T]].
    exists ([Log instruction] ++ tr1 ++ tr). rewrite E. split.
    - now rewrite <- !app_assoc.
    - constructor; [exact I|]. apply Forall_app. now split. }
  destruct (getValidInputFrom_accepted diagnostic "Enter Tablet sizes: " rest1
              ((out ++ [Log instruction]) ++ tr1) t more H1)
    as [rest2 [tr2 [F2 [H2 T2]]]].
  rewrite F2. cbn [stdin stdout].
  destruct more as [|m more]; [|simpl in Hlen; lia].
  destruct (getValidInputFrom_starved diagnostic "Enter Mobile sizes: " rest2
              (((out ++ [Log instruction]) ++ tr1) ++ tr2) H2) as [tr [E T]].
  exists ([Log instruction] ++ tr1 ++ tr2 ++ tr). rewrite E. split.
  - now rewrite <- !app_assoc.
  - constructor; [exact I|]. apply Forall_app. split; [assumption|].
    apply Forall_app. now split.
Qed.

Lemma getValidInputFrom_accepted_out instruction diagnostic promptMessage lines :
  forall out line more,
    acceptedLines lines = line :: more ->
    exists rest tr,
      getValidInputFrom diagnostic promptMessage lines out
      = Done line (mkWorld rest (out ++ tr))
      /\ acceptedLines rest = more
      /\ Forall (scriptOutput instruction diagnostic) tr.
Proof.
  induction lines as [|input lines IH]; intros out line more; simpl.
  - discriminate.
  - destruct (loopCondition input) eqn:Hc; simpl.
    + intros H. destruct (IH (out ++ [Prompt promptMessage; Log diagnostic])
                            line more H) as [rest [tr [E [Hrest Htr]]]].
      exists rest, ([Prompt promptMessage; Log diagnostic] ++ tr).
      split; [|split].
      * rewrite E. now rewrite <- !app_assoc.
      * exact Hrest.
      * constructor; [right; right; now exists promptMessage|].
        constructor; [right; now left | exact Htr].
    + intros H. injection H as -> <-.
      exists lines, [Prompt promptMessage]. repeat split.
      constructor; [right; right; now exists promptMessage | constructor].
Qed.

Lemma getValidInputFrom_starved_out instruction diagnostic promptMessage lines :
  forall out,
    acceptedLines lines = [] ->
    exists tr,
      getValidInputFrom diagnostic promptMessage lines out
      = Pending (mkWorld [] (out ++ tr))
      /\ Forall (scriptOutput instruction diagnostic) tr.
Proof.
  induction lines as [|input lines IH]; intros out; simpl.
  - intros _. exists [Prompt promptMessage]. split; [reflexivity|].
    constructor; [right; right; now exists promptMessage | constructor].
  - destruct (loopCondition input); simpl; [|discriminate].
    intros H. destruct (IH (out ++ [Prompt promptMessage; Log diagnostic]) H)
      as [tr [E Htr]].
    exists ([Prompt promptMessage; Log diagnostic] ++ tr). split.
    + rewrite E. now rewrite <- app_assoc.
    + constructor; [right; right; now exists promptMessage|].
      constructor; [right; now left | exact Htr].
Qed.

(** With fewer than three lines that pass, the common opening of the
    scripts stops at a question, having written its instruction, prompts
    and diagnostics and nothing else. *)
Lemma three_reads_unanswered instruction diagnostic
    (k : jsstring -> jsstring -> jsstring -> M unit) w :
  (List.length (acceptedLines (stdin w)) < 3)%nat ->
  exists tr,
    (consoleLog instruction ;;;
     desktopInput <- Shared.getValidInput diagnostic "Enter Desktop sizes: " ;;
     tabletInput <- Shared.getValidInput diagnostic "Enter Tablet sizes: " ;;
     mobileInput <- Shared.getValidInput diagnostic "Enter Mobile sizes: " ;;
     rlClose ;;;
     k desktopInput tabletInput mobileInput)%io w
    = Pending (mkWorld [] (stdout w ++ tr))
    /\ Forall (scriptOutput instruction diagnostic) tr.
Proof.
  destruct w as [lines out]. cbn [stdin stdout]. intros Hlen.
  unfold bind, consoleLog, rlClose, emit, Shared.getValidInput.
  cbn [stdin stdout].
  assert (Hi : scriptOutput instruction diagnostic (Log instruction)) by now left.
  destruct (acceptedLines lines) as [|d more] eqn:E1.
  { destruct (getValidInputFrom_starved_out instruction diagnostic
                "Enter Desktop sizes: " lines (out ++ [Log instruction]) E1)
      as [tr [E T]].
    exists ([Log instruction] ++ tr). rewrite E. split.
    - now rewrite <- app_assoc.
    - constructor; [exact Hi | exact T]. }
  destruct (getValidInputFrom_accepted_out instruction diagnostic
              "Enter Desktop sizes: " lines (out ++ [Log instruction]) d more E1)
    as [rest1 [tr1 [F1 [H1 T1]]]].
  rewrite F1. cbn [stdin stdout].
  destruct more as [|t more].
  { destruct (getValidInputFrom_starved_out instruction diagnostic
                "Enter Tablet sizes: " rest1
                ((out ++ [Log instruction]) ++ tr1) H1) as [tr [E T]].
    exists ([Log instruction] ++ tr1 ++ tr). rewrite E. split.
    - now rewrite <- !app_assoc.
    - constructor; [exact Hi|]. apply Forall_app. now split. }
  destruct (getValidInputFrom_accepted_out instruction diagnostic
              "Enter Tablet sizes: " rest1
              ((out ++ [Log instruction]) ++ tr1) t more H1)
    as [rest2 [tr2 [F2 [H2 T2]]]].
  rewrite F2. cbn [stdin stdout].
  destruct more as [|m more]; [|simpl in Hlen; lia].
  destruct (getValidInputFrom_starved_out instruction diagnostic
              "Enter Mobile sizes: " rest2
              (((out ++ [Log instruction]) ++ tr1) ++ tr2) H2) as [tr [E T]].
  exists ([Log instruction] ++ tr1 ++ tr2 ++ tr). rewrite E. split.
  - now rewrite <- !app_assoc.
  - constructor; [exact Hi|]. apply Forall_app. split; [assumption|].
    apply Forall_app. now split.
Qed.

Lemma scriptOutput_no_result instruction diagnostic tr :
  Forall (scriptOutput instruction diagnostic) tr ->
  instruction <> "No size config needed"%string ->
  diagnostic <> "No size config needed"%string ->
  ~ In (Log "No size config needed") tr
  /\ ~ In RlClose tr
  /\ Forall (fun e => ~ isJson e) tr.
Proof.
  intros H Hi Hd. split; [|split].
  - intros Hin. eapply Forall_forall in H; [|exact Hin].
    destruct H as [E|[E|[q E]]]; try discriminate E;
      injection E as E; congruence.
  - intros Hin. eapply Forall_forall in H; [|exact Hin].
    destruct H as [E|[E|[q E]]]; discriminate E.
  - eapply Forall_impl; [|exact H].
    intros e [->|[->|[q ->]]]; simpl; tauto.
Qed.

(** X13: when the input of a prompt script holds fewer than three lines
    that pass the loop, the script reads all of it and is left with a
    question unanswered: what it has written is its instruction, prompts
    and diagnostics only, so it prints no result (no JSON and no
    "No size config needed") and does not reach [rl.close()]. *)
Theorem prompt_scripts_need_three_lines :
  forall w : world,
    (List.length (acceptedLines (stdin w)) < 3)%nat ->
    (exists tr,
       NotAutoInsert.generateSizeMap w = Pending (mkWorld [] (stdout w ++ tr))
       /\ Forall (scriptOutput NotAutoInsert.instruction NotAutoInsert.diagnostic) tr
       /\ ~ In (Log "No size config needed") tr
       /\ ~ In RlClose tr /\ Forall (fun e => ~ isJson e) tr)
    /\ (exists tr,
         SizeMapRef.generateSizeMap w = Pending (mkWorld [] (stdout w ++ tr))
         /\ Forall (scriptOutput NotAutoInsert.instruction NotAutoInsert.diagnostic) tr
         /\ ~ In RlClose tr /\ Forall (fun e => ~ isJson e) tr)
    /\ (exists tr,
         EnvExt.processInputs w = Pending (mkWorld [] (stdout w ++ tr))
         /\ Forall (scriptOutput EnvExt.instruction EnvExt.diagnostic) tr
         /\ ~ In RlClose tr /\ Forall (fun e => ~ isJson e) tr).
Proof.
  intros w H. split; [|split].
  - destruct (three_reads_unanswered NotAutoInsert.instruction
                NotAutoInsert.diagnostic
                (fun desktopInput tabletInput mobileInput =>
                   let desktopSizes := parseSizes desktopInput in
                   let tabletSizes := parseSizes tabletInput in
                   let mobileSizes := parseSizes mobileInput in
                   if nullOrEmpty desktopSizes && nullOrEmpty tabletSizes
                      && nullOrEmpty mobileSizes
                   then consoleLog "No size config needed"
                   else emit (LogJson (NotAutoInsert.createSizeMap desktopSizes
                                         tabletSizes mobileSizes)))
                w H) as [tr [E T]].
    exists tr. split; [exact E | split; [exact T|]].
    apply (scriptOutput_no_result _ _ _ T); discriminate.
  - destruct (three_reads_unanswered NotAutoInsert.instruction
                NotAutoInsert.diagnostic
                (fun desktopInput tabletInput mobileInput =>
                   emit (LogJson (SizeMapRef.createSizeMap
                                    (parseSizes desktopInput)
                                    (parseSizes tabletInput)
                                    (parseSizes mobileInput))))
                w H) as [tr [E T]].
    exists tr. split; [exact E | split; [exact T|]].
    apply (scriptOutput_no_result _ _ _ T); discriminate.
  - destruct (three_reads_unanswered EnvExt.instruction EnvExt.diagnostic
                (fun desktopInput tabletInput mobileInput =>
                   emit (LogJson (EnvExt.generateSizeMap
                                    [parseSizes desktopInput;
                                     parseSizes tabletInput;
                                     parseSizes mobileInput] EnvExt.devices)))
                w H) as [tr [E T]].
    exists tr. split; [exact E | split; [exact T|]].
    apply (scriptOutput_no_result _ _ _ T); discriminate.
Qed.

Lemma prompt_scripts_need_three_lines_witness :
  exists tr,
    EnvExt.processInputs (mkWorld [lit "1x1"; lit "oops"; lit ""] [])
    = Pending (mkWorld [] ([] ++ tr))
    /\ Forall (scriptOutput EnvExt.instruction EnvExt.diagnostic) tr
    /\ ~ In RlClose tr /\ Forall (fun e => ~ isJson e) tr.
Proof.
  apply (prompt_scripts_need_three_lines
           (mkWorld [lit "1x1"; lit "oops"; lit ""] [])).
  simpl. lia.
Defined.

(** X14: on the same three accepted lines notAutoInsert.js ends with
    "No size config needed" exactly when the first-plus-extensions script
    ends by printing the empty object. *)
Theorem no_config_iff_empty_object :
  forall w d t m more,
    acceptedLines (stdin w) = d :: t :: m :: more ->
    (finalEvent (NotAutoInsert.generateSizeMap w)
     = Some (Log "No size config needed")
     <-> finalEvent (EnvExt.processInputs w) = Some (LogJson (VObj []))).
Proof.
  intros w d t m more H.
  rewrite (notAutoInsert_result w d t m more H), (envExt_result w d t m more H).
  unfold resultNotAutoInsert, resultEnvExt.
  destruct (parseSizes d) as [[|v1 l1]|], (parseSizes t) as [[|v2 l2]|],
    (parseSizes m) as [[|v3 l3]|];
    cbn; split; intros E; try reflexivity; discriminate E.
Qed.

Lemma no_config_iff_empty_object_witness :
  finalEvent (NotAutoInsert.generateSizeMap
                (mkWorld [lit "null"; lit "x"; lit ""; lit "NULL"] []))
  = Some (Log "No size config needed")
  <-> finalEvent (EnvExt.processInputs
                    (mkWorld [lit "null"; lit "x"; lit ""; lit "NULL"] []))
      = Some (LogJson (VObj [])).
Proof.
  apply (no_config_iff_empty_object
           (mkWorld [lit "null"; lit "x"; lit ""; lit "NULL"] [])
           (lit "null") (lit "") (lit "NULL") []).
  reflexivity.
Defined.

(** X15: whenever a run of notAutoInsert.js prints JSON, the printed object
    is a [sizeMap] of one to three entries, at least one of which carries a
    non-empty array of sizes: a map of nulls only is never printed. *)
Theorem notAutoInsert_prints_sizes :
  forall (w : world) (v : value),
    finalEvent (NotAutoInsert.generateSizeMap w) = Some (LogJson v) ->
    exists entries,
      v = VObj [("sizeMap"%string, VArr entries)]
      /\ Exists hasSizes entries
      /\ (1 <= List.length entries <= 3)%nat.
Proof.
  intros w v H.
  destruct (acceptedLines (stdin w)) as [|d [|t [|m more]]] eqn:E.
  1-3: assert (Hlen : (List.length (acceptedLines (stdin w)) < 3)%nat)
         by (rewrite E; simpl; lia);
       destruct (three_reads_pending NotAutoInsert.instruction
                   NotAutoInsert.diagnostic
                   (fun desktopInput tabletInput mobileInput =>
                      let desktopSizes := parseSizes desktopInput in
                      let tabletSizes := parseSizes tabletInput in
                      let mobileSizes := parseSizes mobileInput in
                      if nullOrEmpty desktopSizes && nullOrEmpty tabletSizes
                         && nullOrEmpty mobileSizes
                      then consoleLog "No size config needed"
                      else emit (LogJson (NotAutoInsert.createSizeMap desktopSizes
                                            tabletSizes mobileSizes)))
                   w Hlen) as [tr [P _]];
       change (NotAutoInsert.generateSizeMap w
               = Pending (mkWorld [] (stdout w ++ tr))) in P;
       rewrite P in H; discriminate H.
  rewrite (notAutoInsert_result w d t m more E) in H.
  unfold resultNotAutoInsert in H.
  destruct (parseSizes d) as [[|v1 l1]|], (parseSizes t) as [[|v2 l2]|],
    (parseSizes m) as [[|v3 l3]|];
    cbn in H; try discriminate H; injection H as <-;
    eexists; (split; [reflexivity|]); (split; [|simpl; lia]);
    repeat first
      [ solve [apply Exists_cons_hd; eexists _, _, _; reflexivity]
      | apply Exists_cons_tl ].
Qed.

Lemma notAutoInsert_prints_sizes_witness :
  exists entries,
    NotAutoInsert.createSizeMap (parseSizes (lit "null")) (parseSizes (lit ""))
      (parseSizes (lit "320x50"))
    = VObj [("sizeMap"%string, VArr entries)]
    /\ Exists hasSizes entries
    /\ (1 <= List.length entries <= 3)%nat.
Proof.
  apply (notAutoInsert_prints_sizes
           (mkWorld [lit "null"; lit ""; lit "320 x 50"; lit "320x50"] [])).
  reflexivity.
Defined.

(** ** The launcher, once more *)

Lemma refusedRounds_no_spawn (bad : list jsstring) :
  filter isSpawn (flat_map (fun _ => refusedRound) bad) = [].
Proof.
  induction bad as [|line bad IH]; [reflexivity|].
  cbn [flat_map]. rewrite filter_app, IH. reflexivity.
Qed.

(** X16: the launcher spawns exactly one child, [node] on the script of
    the first line that is a choice, and what it does is the same whatever
    lines follow that choice: it reads none of them, they are left on the
    standard input the child inherits.  Without a choice nothing is
    spawned. *)
Theorem launcher_spawns_once :
  forall (child : string -> Launcher.childEvent) (bad : list jsstring),
    Forall (fun line => choiceOf line = None) bad ->
    filter isSpawn (Launcher.startScript child bad) = []
    /\ (forall input rest script,
          choiceOf input = Some script ->
          filter isSpawn (Launcher.startScript child (bad ++ input :: rest))
          = [Spawn "node" [script] [Inherit; Inherit; Inherit]]
          /\ Launcher.startScript child (bad ++ input :: rest)
             = Launcher.startScript child (bad ++ [input])).
Proof.
  intros child bad Hbad. split.
  - pose proof (startScript_refused child bad Hbad []) as E.
    rewrite app_nil_r in E. rewrite E, filter_app, refusedRounds_no_spawn.
    reflexivity.
  - intros input rest script Hchoice.
    rewrite !(startScript_refused child bad Hbad), !startScript_round, Hchoice.
    split; [|reflexivity].
    rewrite filter_app, refusedRounds_no_spawn.
    unfold Launcher.executeScript.
    destruct (child script) as [message|[code|]]; reflexivity.
Qed.

Lemma launcher_spawns_once_witness :
  filter isSpawn
    (Launcher.startScript (fun _ => Launcher.ChildError "ENOENT")
       ([lit "b"] ++ lit "A" :: [lit "728x90"]))
  = [Spawn "node" ["autoInsert.js"%string] [Inherit; Inherit; Inherit]]
  /\ Launcher.startScript (fun _ => Launcher.ChildError "ENOENT")
       ([lit "b"] ++ lit "A" :: [lit "728x90"])
     = Launcher.startScript (fun _ => Launcher.ChildError "ENOENT")
         ([lit "b"] ++ [lit "A"]).
Proof.
  destruct (launcher_spawns_once (fun _ => Launcher.ChildError "ENOENT")
              [lit "b"]) as [_ H].
  - repeat constructor.
  - apply H. reflexivity.
Defined.
